(** * MessageQueue.h: the shared-memory fast message queue of libhwbinder

    A shallow embedding of [android::hardware::MessageQueue<T>]
    (src/fast_msgq/common/MessageQueue.h) and the properties of its
    ring-buffer protocol.

    Conventions of the embedding:
    - [uint64_t] and [size_t] (LP64) are [Z] reduced by [wrap64]; [uint32_t]
      by [wrap32]; [int] is the signed 32-bit value [to_int].
    - the process address space is a finite map from addresses to bytes; a
      load or store outside it, and a division by zero, are [Fault];
      a failed [CHECK] is [Abort].
    - a [std::atomic<uint64_t>] is its eight bytes in little-endian order.
    - every method is a computation in the monad [M], which threads the
      address space and the log of atomic accesses and system calls. *)

From Stdlib Require Import ZArith Lia List Bool.
From stdpp Require Import base option gmap list fin_maps.
From Stdlib Require Import Strings.Byte.
Import ListNotations.

Local Open Scope Z_scope.

(** ** Machine integers *)

Definition wrap64 (x : Z) : Z := x mod 2 ^ 64.
Definition wrap32 (x : Z) : Z := x mod 2 ^ 32.

(** Conversion to [int]: the value modulo 2^32 read as two's complement. *)
Definition to_int (x : Z) : Z :=
  let u := wrap32 x in if u <? 2 ^ 31 then u else u - 2 ^ 32.

(** [SIZE_MAX] on an LP64 target. *)
Definition SIZE_MAX : Z := 2 ^ 64 - 1.

(** ** Bytes and the little-endian layout of a 64-bit word *)

Definition Z_of_byte (b : byte) : Z := Z.of_N (Byte.to_N b).

Definition byte_of_Z (z : Z) : byte :=
  match Byte.of_N (Z.to_N (z mod 256)) with
  | Some b => b
  | None => x00
  end.

Fixpoint le_bytes (n : nat) (v : Z) : list byte :=
  match n with
  | O => []
  | S k => byte_of_Z v :: le_bytes k (v / 256)
  end.

Fixpoint le_value (l : list byte) : Z :=
  match l with
  | [] => 0
  | b :: l' => Z_of_byte b + 256 * le_value l'
  end.

(** ** The address space *)

Fixpoint load_bytes (m : gmap Z byte) (a : Z) (n : nat) : option (list byte) :=
  match n with
  | O => Some []
  | S k =>
      match m !! a with
      | None => None
      | Some b =>
          match load_bytes m (a + 1) k with
          | None => None
          | Some l => Some (b :: l)
          end
      end
  end.

Fixpoint store_bytes (m : gmap Z byte) (a : Z) (l : list byte)
  : option (gmap Z byte) :=
  match l with
  | [] => Some m
  | b :: l' =>
      match m !! a with
      | None => None
      | Some _ => store_bytes (<[a := b]> m) (a + 1) l'
      end
  end.

(** The address space with the bytes [l] at the addresses from [a] on: what
    a successful [mmap] maps, and what a store to mapped addresses leaves. *)
Fixpoint map_bytes (m : gmap Z byte) (a : Z) (l : list byte) : gmap Z byte :=
  match l with
  | [] => m
  | b :: l' => <[a := b]> (map_bytes m (a + 1) l')
  end.

(** Removal of the address range [a, a + n), as [munmap] does. *)
Definition unmap_range (m : gmap Z byte) (a n : Z) : gmap Z byte :=
  filter (fun kv => ~ (a <= kv.1 < a + n)) m.

(** The 64-bit word stored at [a], as an observer reads it ([0] where the
    eight bytes are not all mapped). *)
Definition word_at (m : gmap Z byte) (a : Z) : Z :=
  match load_bytes m a 8 with
  | Some l => le_value l
  | None => 0
  end.

(** ** Outcomes, events and the monad of the methods *)

Inductive outcome (A : Type) : Type :=
| Ok (a : A)
| Abort
| Fault.
Arguments Ok {A} a.
Arguments Abort {A}.
Arguments Fault {A}.

Inductive memory_order : Set :=
| memory_order_relaxed
| memory_order_consume
| memory_order_acquire
| memory_order_release
| memory_order_acq_rel
| memory_order_seq_cst.

Inductive event : Type :=
| AtomicLoad (addr : Z) (order : memory_order)
| AtomicStore (addr value : Z) (order : memory_order)
| Mmap (addr len prot flags fd off : Z) (ret : Z)
| Munmap (addr len : Z).

Record world : Type := World { mem : gmap Z byte; trace : list event }.

Definition M (A : Type) : Type := world -> outcome (A * world).

Definition ret {A} (a : A) : M A := fun w => Ok (a, w).

Definition bind {A B} (c : M A) (k : A -> M B) : M B :=
  fun w =>
    match c w with
    | Ok (a, w') => k a w'
    | Abort => Abort
    | Fault => Fault
    end.

Notation "x <- c ;; k" := (bind c (fun x => k))
  (at level 100, c at next level, right associativity).
Notation "c ;; k" := (bind c (fun _ => k))
  (at level 100, right associativity).

(** [CHECK(cond)] of android-base/logging.h: the process aborts when the
    condition is false. *)
Definition CHECK (cond : bool) : M unit :=
  fun w => if cond then Ok (tt, w) else Abort.

(** [p->load(order)] on a [std::atomic<uint64_t>* p]. *)
Definition atomic_load (p : Z) (order : memory_order) : M Z :=
  fun w =>
    match load_bytes (mem w) p 8 with
    | None => Fault
    | Some l => Ok (le_value l, World (mem w) (trace w ++ [AtomicLoad p order]))
    end.

(** [p->store(v, order)]. *)
Definition atomic_store (p v : Z) (order : memory_order) : M unit :=
  fun w =>
    match store_bytes (mem w) p (le_bytes 8 v) with
    | None => Fault
    | Some m' => Ok (tt, World m' (trace w ++ [AtomicStore p v order]))
    end.

(** A caller's array is the list of its bytes and a pointer into it is an
    offset. [memcpy_out dst buf off n] is [memcpy(dst, buf + off, n)] with
    [dst] in the address space. *)
Definition memcpy_out (dst : Z) (buf : list byte) (off n : Z) : M unit :=
  fun w =>
    let chunk := take (Z.to_nat n) (drop (Z.to_nat off) buf) in
    if Z.of_nat (length chunk) <? n then Fault
    else
      match store_bytes (mem w) dst chunk with
      | None => Fault
      | Some m' => Ok (tt, World m' (trace w))
      end.

(** [memcpy_in buf off src n] is [memcpy(buf + off, src, n)] with [src] in the
    address space; the result is the caller's array afterwards. *)
Definition memcpy_in (buf : list byte) (off src n : Z) : M (list byte) :=
  fun w =>
    if Z.of_nat (length buf) <? off + n then Fault
    else
      match load_bytes (mem w) src (Z.to_nat n) with
      | None => Fault
      | Some l =>
          Ok (take (Z.to_nat off) buf ++ l ++ drop (Z.to_nat (off + n)) buf, w)
      end.

(** Unsigned [%] and [/]: a zero divisor is undefined behaviour. *)
Definition umod (a b : Z) : M Z :=
  fun w => if b =? 0 then Fault else Ok (a mod b, w).

Definition udiv (a b : Z) : M Z :=
  fun w => if b =? 0 then Fault else Ok (a / b, w).

(** [v[i]] on an array or vector: outside its bounds it is undefined. *)
Definition index {A} (v : list A) (i : Z) : M A :=
  fun w =>
    if i <? 0 then Fault
    else match v !! Z.to_nat i with
         | Some x => Ok (x, w)
         | None => Fault
         end.

(** ** The descriptor (hidl/MQDescriptor.h) *)

(** Modelled from the spec: hidl/MQDescriptor.h is not part of the sources;
    section 6 gives a grantor the fields fdIndex, offset and extent, all
    unsigned. *)
Record GrantorDescriptor : Type := Grantor {
  fdIndex : Z;
  offset : Z;
  extent : Z
}.

(** Modelled from the spec: the descriptor of section 6, with a capacity, a
    quantum, a native handle holding an ordered array of file descriptors
    (absent when the handle is invalid) and the grantor table. *)
Record MQDescriptor : Type := Descriptor {
  mGrantors : list GrantorDescriptor;
  mHandle : option (list Z);
  mQuantum : Z;
  mSize : Z
}.

Definition getSize (d : MQDescriptor) : Z := wrap64 (mSize d).
Definition getQuantum (d : MQDescriptor) : Z := wrap64 (mQuantum d).
Definition countGrantors (d : MQDescriptor) : Z := Z.of_nat (length (mGrantors d)).
Definition getGrantors (d : MQDescriptor) : list GrantorDescriptor := mGrantors d.
Definition getNativeHandle (d : MQDescriptor) : option (list Z) := mHandle d.
Definition isHandleValid (d : MQDescriptor) : bool :=
  match mHandle d with Some _ => true | None => false end.

(** Modelled from the spec: the positional constants of section 6 and the
    minimum of three grantors. *)
Definition READPTRPOS : Z := 0.
Definition WRITEPTRPOS : Z := 1.
Definition DATAPTRPOS : Z := 2.
Definition kMinGrantorCount : Z := 3.

(** [getNativeHandle()->handle()]: the file descriptors, through a pointer
    that is null for an invalid handle. *)
Definition handle (h : option (list Z)) : M (list Z) :=
  fun w => match h with Some fds => Ok (fds, w) | None => Fault end.

(** Constants of sys/mman.h. *)
Definition PROT_READ : Z := 1.
Definition PROT_WRITE : Z := 2.
Definition MAP_SHARED : Z := 1.
Definition MAP_FAILED : Z := wrap64 (-1).

(** ** The queue *)

Module region.
Record t : Type := mk { address : Z; length : Z }.
End region.

Module transaction.
Record t : Type := mk { first : region.t; second : region.t }.
End transaction.

Record MessageQueue : Type := Queue {
  mDesc : MQDescriptor;
  mRing : Z;
  mReadPtr : Z;
  mWritePtr : Z
}.

Section MessageQueue.

(** [sizeof(T)] of the template parameter. *)
Variable sizeofT : Z.

(** The page size of the platform. *)
Variable PAGE_SIZE : Z.

(** The kernel's answer to [mmap(addr, len, prot, flags, fd, off)] in a
    given address space: [None] for [MAP_FAILED], or the base address of
    the new mapping and the bytes of the shared object found there. *)
Variable kernel : gmap Z byte -> Z -> Z -> Z -> Z -> Z -> Z -> option (Z * list byte).

Definition mmap (addr len prot flags fd off : Z) : M Z :=
  fun w =>
    match kernel (mem w) addr len prot flags fd off with
    | None =>
        Ok (MAP_FAILED,
            World (mem w) (trace w ++ [Mmap addr len prot flags fd off MAP_FAILED]))
    | Some (base, content) =>
        Ok (base,
            World (map_bytes (mem w) base content)
                  (trace w ++ [Mmap addr len prot flags fd off base]))
    end.

Definition munmap (addr len : Z) : M unit :=
  fun w => Ok (tt, World (unmap_range (mem w) addr len) (trace w ++ [Munmap addr len])).

Definition mapGrantorDescr (this : MessageQueue) (grantor_idx : Z) : M Z :=
  fds <- handle (getNativeHandle (mDesc this)) ;;
  let mGrantors := getGrantors (mDesc this) in
  g <- index mGrantors grantor_idx ;;
  let fdIndex := to_int (wrap32 (fdIndex g)) in
  let mapOffset := to_int (wrap32 (wrap32 (offset g) / PAGE_SIZE * PAGE_SIZE)) in
  let mapLength :=
    to_int (wrap32 (wrap32 (wrap32 (offset g) - mapOffset) + wrap32 (extent g))) in
  fd <- index fds fdIndex ;;
  address <- mmap 0 (wrap64 mapLength) (Z.lor PROT_READ PROT_WRITE) MAP_SHARED
                  fd mapOffset ;;
  ret (if address =? MAP_FAILED then 0
       else address + wrap32 (wrap32 (offset g) - mapOffset)).

Definition unmapGrantorDescr (this : MessageQueue) (address grantor_idx : Z)
  : M unit :=
  fds <- handle (getNativeHandle (mDesc this)) ;;
  let mGrantors := getGrantors (mDesc this) in
  g <- index mGrantors grantor_idx ;;
  let mapOffset := to_int (wrap32 (wrap32 (offset g) / PAGE_SIZE * PAGE_SIZE)) in
  let mapLength :=
    to_int (wrap32 (wrap32 (wrap32 (offset g) - mapOffset) + wrap32 (extent g))) in
  let baseAddress := address - wrap32 (wrap32 (offset g) - mapOffset) in
  if baseAddress =? 0 then ret tt else munmap baseAddress (wrap64 mapLength).

(** The constructor. Only [mDesc] has a member initialiser: [storage] holds
    the indeterminate values the three pointer members have when the body
    starts, and they are what the object keeps on the early return. *)
Definition MessageQueue_ctor (storage : Z * Z * Z) (Desc : MQDescriptor)
  : M MessageQueue :=
  let '(ring0, read0, write0) := storage in
  let this := Queue Desc ring0 read0 write0 in
  if negb (isHandleValid Desc)
     || (countGrantors Desc <? kMinGrantorCount)
     || negb (getQuantum Desc =? sizeofT)
  then ret this
  else
    readPtr <- mapGrantorDescr this READPTRPOS ;;
    let this := Queue Desc ring0 readPtr write0 in
    CHECK (negb (mReadPtr this =? 0)) ;;
    writePtr <- mapGrantorDescr this WRITEPTRPOS ;;
    let this := Queue Desc ring0 readPtr writePtr in
    CHECK (negb (mWritePtr this =? 0)) ;;
    atomic_store (mReadPtr this) 0 memory_order_acquire ;;
    atomic_store (mWritePtr this) 0 memory_order_acquire ;;
    ring <- mapGrantorDescr this DATAPTRPOS ;;
    let this := Queue Desc ring readPtr writePtr in
    CHECK (negb (mRing this =? 0)) ;;
    ret this.

Definition MessageQueue_dtor (this : MessageQueue) : M unit :=
  (if mReadPtr this =? 0 then ret tt
   else unmapGrantorDescr this (mReadPtr this) READPTRPOS) ;;
  (if mWritePtr this =? 0 then ret tt
   else unmapGrantorDescr this (mWritePtr this) WRITEPTRPOS) ;;
  (if mRing this =? 0 then ret tt
   else unmapGrantorDescr this (mRing this) DATAPTRPOS).

Definition availableToRead (this : MessageQueue) : M Z :=
  w <- atomic_load (mWritePtr this) memory_order_relaxed ;;
  r <- atomic_load (mReadPtr this) memory_order_relaxed ;;
  ret (wrap64 (w - r)).

Definition availableToWrite (this : MessageQueue) : M Z :=
  a <- availableToRead this ;;
  ret (wrap64 (getSize (mDesc this) - a)).

Definition beginWrite (this : MessageQueue) (nBytesDesired : Z)
  : M transaction.t :=
  readPtr <- atomic_load (mReadPtr this) memory_order_acquire ;;
  writePtr <- atomic_load (mWritePtr this) memory_order_relaxed ;;
  writeOffset <- umod writePtr (getSize (mDesc this)) ;;
  let contiguous := wrap64 (getSize (mDesc this) - writeOffset) in
  if contiguous <? nBytesDesired then
    ret (transaction.mk
           (region.mk (mRing this + writeOffset) contiguous)
           (region.mk (mRing this) (wrap64 (nBytesDesired - contiguous))))
  else
    ret (transaction.mk
           (region.mk (mRing this + writeOffset) nBytesDesired)
           (region.mk 0 0)).

Definition commitWrite (this : MessageQueue) (nBytesWritten : Z) : M unit :=
  writePtr <- atomic_load (mWritePtr this) memory_order_relaxed ;;
  let writePtr := wrap64 (writePtr + nBytesWritten) in
  atomic_store (mWritePtr this) writePtr memory_order_release.

Definition writeBytes (this : MessageQueue) (data : list byte) (size : Z)
  : M Z :=
  tx <- beginWrite this size ;;
  let first := transaction.first tx in
  let second := transaction.second tx in
  memcpy_out (region.address first) data 0 (region.length first) ;;
  memcpy_out (region.address second) data (region.length first)
             (region.length second) ;;
  let result := wrap64 (region.length first + region.length second) in
  commitWrite this result ;;
  ret result.

Definition beginRead (this : MessageQueue) (nBytesDesired : Z)
  : M transaction.t :=
  writePtr <- atomic_load (mWritePtr this) memory_order_acquire ;;
  readPtr <- atomic_load (mReadPtr this) memory_order_relaxed ;;
  readOffset <- umod readPtr (getSize (mDesc this)) ;;
  let contiguous := wrap64 (getSize (mDesc this) - readOffset) in
  if contiguous <? nBytesDesired then
    ret (transaction.mk
           (region.mk (mRing this + readOffset) contiguous)
           (region.mk (mRing this) (wrap64 (nBytesDesired - contiguous))))
  else
    ret (transaction.mk
           (region.mk (mRing this + readOffset) nBytesDesired)
           (region.mk 0 0)).

Definition commitRead (this : MessageQueue) (nBytesRead : Z) : M unit :=
  readPtr <- atomic_load (mReadPtr this) memory_order_relaxed ;;
  let readPtr := wrap64 (readPtr + nBytesRead) in
  atomic_store (mReadPtr this) readPtr memory_order_release.

(** [readBytes] returns the caller's array afterwards with its result. *)
Definition readBytes (this : MessageQueue) (data : list byte) (size : Z)
  : M (Z * list byte) :=
  tx <- beginRead this size ;;
  let first := transaction.first tx in
  let second := transaction.second tx in
  data <- memcpy_in data 0 (region.address first) (region.length first) ;;
  data <- memcpy_in data (region.length first) (region.address second)
                    (region.length second) ;;
  let result := wrap64 (region.length first + region.length second) in
  commitRead this result ;;
  ret (result, data).

Definition write (this : MessageQueue) (data : list byte) (count : Z)
  : M bool :=
  a <- availableToWrite this ;;
  if a <? wrap64 (sizeofT * count) then ret false
  else
    n <- writeBytes this data (wrap64 (sizeofT * count)) ;;
    ret (n =? wrap64 (sizeofT * count)).

Definition read (this : MessageQueue) (data : list byte) (count : Z)
  : M (bool * list byte) :=
  a <- availableToRead this ;;
  if a <? wrap64 (sizeofT * count) then ret (false, data)
  else
    r <- readBytes this data (wrap64 (sizeofT * count)) ;;
    ret (r.1 =? wrap64 (sizeofT * count), r.2).

(** The single-record forms. *)
Definition write1 (this : MessageQueue) (data : list byte) : M bool :=
  write this data 1.

Definition read1 (this : MessageQueue) (data : list byte)
  : M (bool * list byte) :=
  read this data 1.

Definition getQuantumSize (this : MessageQueue) : Z :=
  getQuantum (mDesc this).

Definition getQuantumCount (this : MessageQueue) : M Z :=
  udiv (getSize (mDesc this)) (getQuantum (mDesc this)).

Definition isValid (this : MessageQueue) : bool :=
  negb (mRing this =? 0) && negb (mReadPtr this =? 0)
  && negb (mWritePtr this =? 0).

End MessageQueue.

(** ** Observers of a state and the conditions of the data model *)

(** The counters W and R as they stand in the address space. *)
Definition writePos (q : MessageQueue) (m : gmap Z byte) : Z :=
  word_at m (mWritePtr q).

Definition readPos (q : MessageQueue) (m : gmap Z byte) : Z :=
  word_at m (mReadPtr q).

(** Occupancy W - R, an unsigned 64-bit subtraction. *)
Definition occupancy (q : MessageQueue) (m : gmap Z byte) : Z :=
  wrap64 (writePos q m - readPos q m).

(** The [n] bytes from address [a] on are all addressable. *)
Definition mapped (m : gmap Z byte) (a n : Z) : bool :=
  match load_bytes m a (Z.to_nat n) with Some _ => true | None => false end.

Definition apart (a n b k : Z) : bool := (a + n <=? b) || (b + k <=? a).

(** The two counter words hold eight addressable bytes each. *)
Definition counters_mapped (q : MessageQueue) (m : gmap Z byte) : bool :=
  mapped m (mReadPtr q) 8 && mapped m (mWritePtr q) 8.

(** A bound endpoint of the data model: the three regions are mapped, the
    ring has the descriptor's capacity, which is positive, and the regions
    do not overlap. *)
Definition well_formed (q : MessageQueue) (m : gmap Z byte) : bool :=
  isValid q
  && (0 <? getSize (mDesc q))
  && counters_mapped q m
  && mapped m (mRing q) (getSize (mDesc q))
  && apart (mReadPtr q) 8 (mWritePtr q) 8
  && apart (mReadPtr q) 8 (mRing q) (getSize (mDesc q))
  && apart (mWritePtr q) 8 (mRing q) (getSize (mDesc q)).

(** The caller's side of [write(data, count)] and [read(data, count)]: [data]
    points to an array of [count] records of [sizeof(T)] bytes, an object of
    the 64-bit address space. *)
Definition array_of (sizeofT : Z) (data : list byte) (count : Z) : bool :=
  (0 <? sizeofT) && (0 <=? count)
  && (Z.of_nat (length data) =? sizeofT * count)
  && (sizeofT * count <=? SIZE_MAX).

(** The checks at the head of the constructor. *)
Definition malformed (sizeofT : Z) (d : MQDescriptor) : bool :=
  negb (isHandleValid d)
  || (countGrantors d <? kMinGrantorCount)
  || negb (getQuantum d =? sizeofT).

(** The address space after the bytes [data] are copied into the ring from
    stream position [p] on: a run up to the end of the ring, and the rest
    from its start. *)
Definition ring_put (q : MessageQueue) (m : gmap Z byte) (p : Z)
  (data : list byte) : gmap Z byte :=
  let C := getSize (mDesc q) in
  let room := Z.to_nat (C - p mod C) in
  map_bytes (map_bytes m (mRing q + p mod C) (take room data))
            (mRing q) (drop room data).

(** The [n] bytes of the ring from stream position [p] on. *)
Definition ring_get (q : MessageQueue) (m : gmap Z byte) (p n : Z)
  : list byte :=
  let C := getSize (mDesc q) in
  let head := Z.min n (C - p mod C) in
  default [] (load_bytes m (mRing q + p mod C) (Z.to_nat head))
  ++ default [] (load_bytes m (mRing q) (Z.to_nat (n - head))).

(** The addresses a run covers: [length] bytes from [address] on. *)
Definition run (r : region.t) : list Z :=
  seqZ (region.address r) (region.length r).

(** The descriptor [d] with its capacity replaced by [s]. *)
Definition with_size (d : MQDescriptor) (s : Z) : MQDescriptor :=
  Descriptor (mGrantors d) (mHandle d) (mQuantum d) s.

(** ** The stream, the geometry of a mapping, and clients of the unit forms *)

(** The unread bytes of the stream, oldest first: the [W - R] bytes of
    the ring from the read position on. *)
Definition pending (q : MessageQueue) (m : gmap Z byte) : list byte :=
  ring_get q m (readPos q m) (occupancy q m).

(** The page-aligned file offset O' of a grantor, its offset O - O' inside
    the page, and the length (O - O') + E of its mapping. *)
Definition page_base (PAGE_SIZE : Z) (g : GrantorDescriptor) : Z :=
  wrap32 (offset g) / PAGE_SIZE * PAGE_SIZE.

Definition page_delta (PAGE_SIZE : Z) (g : GrantorDescriptor) : Z :=
  wrap32 (offset g) - page_base PAGE_SIZE g.

Definition map_length (PAGE_SIZE : Z) (g : GrantorDescriptor) : Z :=
  page_delta PAGE_SIZE g + wrap32 (extent g).

(** A grantor the region mapper handles as meant: its file descriptor index
    lies in the handle, its page-aligned offset and mapping length fit the
    [int] variables of the code, and its extent holds [need] bytes. *)
Definition grantor_fits (PAGE_SIZE : Z) (fds : list Z) (g : GrantorDescriptor)
  (need : Z) : bool :=
  (wrap32 (fdIndex g) <? 2 ^ 31)
  && (wrap32 (fdIndex g) <? Z.of_nat (length fds))
  && (page_base PAGE_SIZE g <? 2 ^ 31)
  && (map_length PAGE_SIZE g <? 2 ^ 31)
  && (need <=? wrap32 (extent g)).

(** A kernel that grants every request: the mapping has the length asked
    for, and its base is neither null nor [MAP_FAILED]. *)
Definition kernel_serves
  (kernel : gmap Z byte -> Z -> Z -> Z -> Z -> Z -> Z -> option (Z * list byte))
  : Prop :=
  forall m addr len prot flags fd off,
    exists base content,
      kernel m addr len prot flags fd off = Some (base, content)
      /\ length content = Z.to_nat len
      /\ 0 < base /\ base <> MAP_FAILED.

(** A producer that sends the records of [rs] one by one with the
    single-record form of [write], stopping at the first refusal. *)
Fixpoint write_each (sizeofT : Z) (q : MessageQueue) (rs : list (list byte))
  : M bool :=
  match rs with
  | [] => ret true
  | r :: rs' =>
      b <- write1 sizeofT q r ;;
      if b then write_each sizeofT q rs' else ret false
  end.

(** A consumer that fills the buffers of [dsts] one by one with the
    single-record form of [read], stopping at the first refusal; it returns
    the records it received. *)
Fixpoint read_each (sizeofT : Z) (q : MessageQueue) (dsts : list (list byte))
  : M (bool * list (list byte)) :=
  match dsts with
  | [] => ret (true, [])
  | dst :: dsts' =>
      r <- read1 sizeofT q dst ;;
      if r.1 then
        rest <- read_each sizeofT q dsts' ;;
        ret (rest.1, r.2 :: rest.2)
      else ret (false, [])
  end.

(** ** Concrete states *)

Definition zeros (n : nat) : list byte := repeat x00 n.

Definition bytes_of (l : list Z) : list byte := map byte_of_Z l.

(** A descriptor laid out as read counter, write counter, ring in one shared
    object, with capacity [C] and quantum [Q]. *)
Definition example_desc (C Q : Z) : MQDescriptor :=
  Descriptor [Grantor 0 0 8; Grantor 0 8 8; Grantor 0 16 C] (Some [3]) Q C.

(** An address space with the read counter at 4096, the write counter at
    8192 and a ring of [C] bytes at 12288; the counters hold [r] and [w]. *)
Definition example_mem (C : nat) (r w : Z) : gmap Z byte :=
  map_bytes (map_bytes (map_bytes ∅ 4096 (le_bytes 8 r)) 8192 (le_bytes 8 w))
            12288 (zeros C).

Definition example_queue (C Q : Z) : MessageQueue :=
  Queue (example_desc C Q) 12288 4096 8192.

(** One past the highest mapped address. *)
Definition top_address (m : gmap Z byte) : Z :=
  map_fold (fun k _ acc => Z.max (k + 1) acc) 0 m.

(** A kernel never places a mapping over addresses that are mapped. *)
Definition kernel_fresh
  (kernel : gmap Z byte -> Z -> Z -> Z -> Z -> Z -> Z -> option (Z * list byte))
  : Prop :=
  forall m addr len prot flags fd off base content,
    kernel m addr len prot flags fd off = Some (base, content) ->
    forall i, 0 <= i < Z.of_nat (length content) -> m !! (base + i) = None.

(** A kernel that places each mapping on the first page above the mapped
    addresses and finds stale bytes (all ones) in the shared object. *)
Definition example_kernel (m : gmap Z byte) (addr len prot flags fd off : Z)
  : option (Z * list byte) :=
  Some (4096 * (top_address m / 4096 + 1), repeat xff (Z.to_nat len)).

(** A kernel that refuses every mapping. *)
Definition failing_kernel (m : gmap Z byte) (addr len prot flags fd off : Z)
  : option (Z * list byte) := None.

(** * Basic facts about the encoding and the address space *)

Lemma Z_of_byte_range b : 0 <= Z_of_byte b < 256.
Proof.
  unfold Z_of_byte. pose proof (Byte.to_N_bounded b) as H.
  split; [apply N2Z.is_nonneg | lia].
Qed.

Lemma Z_of_byte_of_Z z : Z_of_byte (byte_of_Z z) = z mod 256.
Proof.
  unfold byte_of_Z, Z_of_byte.
  assert (Hr : 0 <= z mod 256 < 256) by (apply Z.mod_pos_bound; lia).
  destruct (Byte.of_N (Z.to_N (z mod 256))) as [b|] eqn:E.
  - apply Byte.to_of_N in E. rewrite E. rewrite Z2N.id; lia.
  - apply Byte.of_N_None_iff in E. lia.
Qed.

Lemma length_le_bytes n v : length (le_bytes n v) = n.
Proof. revert v. induction n as [|n IH]; intros v; simpl; [done|]. by rewrite IH. Qed.

Lemma le_value_le_bytes n v :
  le_value (le_bytes n v) = v mod 256 ^ Z.of_nat n.
Proof.
  revert v. induction n as [|n IH]; intros v.
  - simpl. by rewrite Z.mod_1_r.
  - cbn [le_bytes le_value]. rewrite IH, Z_of_byte_of_Z.
    rewrite Nat2Z.inj_succ, Z.pow_succ_r by lia.
    rewrite Z.rem_mul_r by lia. reflexivity.
Qed.

Lemma le_value_range l : 0 <= le_value l < 256 ^ Z.of_nat (length l).
Proof.
  induction l as [|b l IH].
  - simpl. lia.
  - cbn [le_value length]. rewrite Nat2Z.inj_succ, Z.pow_succ_r by lia.
    pose proof (Z_of_byte_range b). lia.
Qed.

Lemma le_bytes_le_value l : le_bytes (length l) (le_value l) = l.
Proof.
  induction l as [|b l IH]; [done|].
  cbn [length le_bytes le_value].
  pose proof (Z_of_byte_range b) as Hb.
  f_equal.
  - unfold byte_of_Z.
    replace ((Z_of_byte b + 256 * le_value l) mod 256) with (Z_of_byte b).
    + unfold Z_of_byte. by rewrite N2Z.id, Byte.of_to_N.
    + apply Z.mod_unique with (q := le_value l); lia.
  - replace ((Z_of_byte b + 256 * le_value l) / 256) with (le_value l); [done|].
    apply Z.div_unique with (r := Z_of_byte b); lia.
Qed.

Lemma load_bytes_length m a n l : load_bytes m a n = Some l -> length l = n.
Proof.
  revert a l. induction n as [|n IH]; intros a l; simpl.
  - by intros [= <-].
  - destruct (m !! a); [|done]. destruct (load_bytes m (a + 1) n) eqn:E; [|done].
    intros [= <-]. simpl. f_equal. eauto.
Qed.

Lemma load_bytes_lookup m a n l i :
  load_bytes m a n = Some l -> (i < n)%nat -> m !! (a + Z.of_nat i) = l !! i.
Proof.
  revert a l i. induction n as [|n IH]; intros a l i; simpl; [lia|].
  destruct (m !! a) as [b|] eqn:Ea; [|done].
  destruct (load_bytes m (a + 1) n) as [l'|] eqn:E; [|done].
  intros [= <-] Hi. destruct i as [|i].
  - simpl. by rewrite Z.add_0_r.
  - simpl. rewrite <- (IH (a + 1) l' i) by (done || lia). f_equal. lia.
Qed.

Lemma load_bytes_is_Some m a n :
  (forall i, (i < n)%nat -> is_Some (m !! (a + Z.of_nat i))) ->
  is_Some (load_bytes m a n).
Proof.
  revert a. induction n as [|n IH]; intros a H; simpl; [eauto|].
  destruct (H 0%nat ltac:(lia)) as [b Hb]. rewrite Z.add_0_r in Hb. rewrite Hb.
  destruct (IH (a + 1)) as [l Hl].
  - intros i Hi. specialize (H (S i) ltac:(lia)).
    by replace (a + 1 + Z.of_nat i) with (a + Z.of_nat (S i)) by lia.
  - rewrite Hl. eauto.
Qed.

Lemma load_bytes_ext m1 m2 a n :
  (forall i, (i < n)%nat -> m1 !! (a + Z.of_nat i) = m2 !! (a + Z.of_nat i)) ->
  load_bytes m1 a n = load_bytes m2 a n.
Proof.
  revert a. induction n as [|n IH]; intros a H; simpl; [done|].
  specialize (H 0%nat ltac:(lia)) as H0. rewrite Z.add_0_r in H0. rewrite H0.
  rewrite (IH (a + 1)); [done|].
  intros i Hi. specialize (H (S i) ltac:(lia)).
  by replace (a + 1 + Z.of_nat i) with (a + Z.of_nat (S i)) by lia.
Qed.

Lemma map_bytes_lookup m a l x :
  map_bytes m a l !! x =
    if decide (a <= x < a + Z.of_nat (length l)) then l !! Z.to_nat (x - a)
    else m !! x.
Proof.
  revert a. induction l as [|b l IH]; intros a.
  - simpl. case_decide; [lia|done].
  - cbn [map_bytes length]. rewrite lookup_insert. case_decide as Hax.
    + subst x. rewrite decide_True by lia. by rewrite Z.sub_diag.
    + rewrite IH. case_decide as H1; case_decide as H2; try lia; try done.
      replace (Z.to_nat (x - a)) with (S (Z.to_nat (x - (a + 1)))) by lia. done.
Qed.

Lemma store_bytes_map_bytes m a l :
  (forall i, (i < length l)%nat -> is_Some (m !! (a + Z.of_nat i))) ->
  store_bytes m a l = Some (map_bytes m a l).
Proof.
  revert m a. induction l as [|b l IH]; intros m a H; simpl; [done|].
  destruct (H 0%nat ltac:(simpl; lia)) as [b0 Hb0]. rewrite Z.add_0_r in Hb0.
  rewrite Hb0. rewrite IH.
  - f_equal. apply map_eq. intros x.
    rewrite lookup_insert, !map_bytes_lookup, lookup_insert.
    repeat case_decide; try lia; done.
  - intros i Hi. specialize (H (S i) ltac:(simpl; lia)).
    replace (a + 1 + Z.of_nat i) with (a + Z.of_nat (S i)) by lia.
    rewrite lookup_insert. case_decide; eauto.
Qed.

(** ** Addressability *)

Lemma mapped_lookup m a n i :
  mapped m a n = true -> 0 <= i < n -> is_Some (m !! (a + i)).
Proof.
  unfold mapped. destruct (load_bytes m a (Z.to_nat n)) as [l|] eqn:E; [|done].
  intros _ Hi. pose proof (load_bytes_length _ _ _ _ E) as Hl.
  pose proof (load_bytes_lookup _ _ _ _ (Z.to_nat i) E ltac:(lia)) as H.
  rewrite Z2Nat.id in H by lia. rewrite H. apply lookup_lt_is_Some. lia.
Qed.

Lemma mapped_intro m a n :
  (forall i, 0 <= i < n -> is_Some (m !! (a + i))) -> mapped m a n = true.
Proof.
  intros H. unfold mapped.
  destruct (load_bytes_is_Some m a (Z.to_nat n)) as [l ->]; [|done].
  intros i Hi. apply H. lia.
Qed.

Lemma is_Some_map_bytes m a l x :
  is_Some (m !! x) -> is_Some (map_bytes m a l !! x).
Proof.
  intros H. rewrite map_bytes_lookup. case_decide; [|done].
  apply lookup_lt_is_Some. lia.
Qed.

Lemma mapped_map_bytes m a l b n :
  mapped m b n = true -> mapped (map_bytes m a l) b n = true.
Proof.
  intros H. apply mapped_intro. intros i Hi.
  apply is_Some_map_bytes. by apply mapped_lookup with (n := n).
Qed.

Lemma load_bytes_map_bytes_same m a l :
  load_bytes (map_bytes m a l) a (length l) = Some l.
Proof.
  destruct (load_bytes_is_Some (map_bytes m a l) a (length l)) as [l' E].
  - intros i Hi. rewrite map_bytes_lookup, decide_True by lia.
    apply lookup_lt_is_Some. lia.
  - rewrite E. f_equal. apply list_eq. intros i.
    destruct (decide (i < length l)%nat) as [Hi|Hi].
    + rewrite <- (load_bytes_lookup _ _ _ _ i E Hi).
      rewrite map_bytes_lookup, decide_True by lia. f_equal. lia.
    + pose proof (load_bytes_length _ _ _ _ E).
      rewrite !lookup_ge_None_2 by lia. done.
Qed.

Lemma load_bytes_map_bytes_apart m a l b n :
  apart b (Z.of_nat n) a (Z.of_nat (length l)) = true ->
  load_bytes (map_bytes m a l) b n = load_bytes m b n.
Proof.
  unfold apart. intros H. apply load_bytes_ext. intros i Hi.
  rewrite map_bytes_lookup. case_decide; [lia|done].
Qed.

Lemma map_bytes_id m a l :
  load_bytes m a (length l) = Some l -> map_bytes m a l = m.
Proof.
  intros H. apply map_eq. intros x. rewrite map_bytes_lookup.
  case_decide as Hx; [|done].
  rewrite <- (load_bytes_lookup _ _ _ _ (Z.to_nat (x - a)) H) by lia.
  f_equal. lia.
Qed.

(** ** The 64-bit words *)

Lemma wrap64_range x : 0 <= wrap64 x < 2 ^ 64.
Proof. unfold wrap64. apply Z.mod_pos_bound. lia. Qed.

Lemma wrap64_small x : 0 <= x < 2 ^ 64 -> wrap64 x = x.
Proof. unfold wrap64. apply Z.mod_small. Qed.

Lemma word_at_range m a : 0 <= word_at m a < 2 ^ 64.
Proof.
  unfold word_at. destruct (load_bytes m a 8) as [l|] eqn:E; [|lia].
  pose proof (le_value_range l) as H.
  rewrite (load_bytes_length _ _ _ _ E) in H. exact H.
Qed.

Lemma word_at_map_bytes_same m a v :
  word_at (map_bytes m a (le_bytes 8 v)) a = wrap64 v.
Proof.
  unfold word_at.
  pose proof (load_bytes_map_bytes_same m a (le_bytes 8 v)) as H.
  rewrite length_le_bytes in H. rewrite H. apply le_value_le_bytes.
Qed.

Lemma word_at_map_bytes_apart m a l b :
  apart b 8 a (Z.of_nat (length l)) = true ->
  word_at (map_bytes m a l) b = word_at m b.
Proof.
  intros H. unfold word_at.
  by rewrite (load_bytes_map_bytes_apart m a l b 8).
Qed.

Lemma map_bytes_word_id m a :
  mapped m a 8 = true -> map_bytes m a (le_bytes 8 (word_at m a)) = m.
Proof.
  unfold mapped, word_at. change (Z.to_nat 8) with 8%nat.
  destruct (load_bytes m a 8) as [l|] eqn:E; [|done]. intros _.
  pose proof (load_bytes_length _ _ _ _ E) as Hl.
  rewrite <- Hl at 1. rewrite le_bytes_le_value.
  apply map_bytes_id. by rewrite Hl.
Qed.

(** ** Equations of the primitive computations *)

Lemma atomic_load_eq p order w :
  mapped (mem w) p 8 = true ->
  atomic_load p order w =
    Ok (word_at (mem w) p, World (mem w) (trace w ++ [AtomicLoad p order])).
Proof.
  unfold mapped, atomic_load, word_at. change (Z.to_nat 8) with 8%nat.
  by destruct (load_bytes (mem w) p 8).
Qed.

Lemma atomic_load_fault p order w :
  mapped (mem w) p 8 = false -> atomic_load p order w = Fault.
Proof.
  unfold mapped, atomic_load. change (Z.to_nat 8) with 8%nat.
  by destruct (load_bytes (mem w) p 8).
Qed.

Lemma atomic_store_eq p v order w :
  mapped (mem w) p 8 = true ->
  atomic_store p v order w =
    Ok (tt, World (map_bytes (mem w) p (le_bytes 8 v))
                  (trace w ++ [AtomicStore p v order])).
Proof.
  intros H. unfold atomic_store. rewrite store_bytes_map_bytes; [done|].
  intros i Hi. rewrite length_le_bytes in Hi.
  apply mapped_lookup with (n := 8); [done|lia].
Qed.

Lemma memcpy_out_eq dst buf off n w :
  0 <= off -> 0 <= n -> off + n <= Z.of_nat (length buf) ->
  mapped (mem w) dst n = true ->
  memcpy_out dst buf off n w =
    Ok (tt, World (map_bytes (mem w) dst
                     (take (Z.to_nat n) (drop (Z.to_nat off) buf)))
                  (trace w)).
Proof.
  intros Hoff Hn Hlen Hm. unfold memcpy_out.
  assert (Hl : length (take (Z.to_nat n) (drop (Z.to_nat off) buf)) = Z.to_nat n).
  { rewrite length_take, length_drop. lia. }
  rewrite Hl. destruct (Z.ltb_spec (Z.of_nat (Z.to_nat n)) n) as [?|_]; [lia|].
  rewrite store_bytes_map_bytes; [done|].
  intros i Hi. apply mapped_lookup with (n := n); [done|lia].
Qed.

Lemma memcpy_in_eq buf off src n w l :
  0 <= off -> 0 <= n -> off + n <= Z.of_nat (length buf) ->
  load_bytes (mem w) src (Z.to_nat n) = Some l ->
  memcpy_in buf off src n w =
    Ok (take (Z.to_nat off) buf ++ l ++ drop (Z.to_nat (off + n)) buf, w).
Proof.
  intros Hoff Hn Hlen Hl. unfold memcpy_in.
  destruct (Z.ltb_spec (Z.of_nat (length buf)) (off + n)) as [?|_]; [lia|].
  by rewrite Hl.
Qed.

(** ** Ring arithmetic *)

Lemma mod_add_small p C i :
  0 < C -> 0 <= i -> p mod C + i < C -> (p + i) mod C = p mod C + i.
Proof.
  intros HC Hi Hlt. rewrite <- Zplus_mod_idemp_l.
  apply Z.mod_small. pose proof (Z.mod_pos_bound p C HC). lia.
Qed.

Lemma mod_add_wrap p C i :
  0 < C -> C <= p mod C + i < 2 * C -> (p + i) mod C = p mod C + i - C.
Proof.
  intros HC Hi. rewrite <- Zplus_mod_idemp_l.
  symmetry. apply Z.mod_unique with (q := 1); lia.
Qed.

Lemma getSize_range d : 0 <= getSize d < 2 ^ 64.
Proof. apply wrap64_range. Qed.

(** ** Copies into and out of the ring *)

Section Ring.
Variable q : MessageQueue.
Abbreviation C := (getSize (mDesc q)) (only parsing).
Abbreviation ring := (mRing q) (only parsing).
Hypothesis HC : 0 < C.

Lemma ring_put_lookup_in m p data i :
  Z.of_nat (length data) <= C -> 0 <= i < Z.of_nat (length data) ->
  ring_put q m p data !! (ring + (p + i) mod C) = data !! Z.to_nat i.
Proof.
  intros Hlen Hi. unfold ring_put.
  pose proof (Z.mod_pos_bound p C HC) as Hoff.
  rewrite !map_bytes_lookup, length_take, length_drop.
  destruct (Z_lt_le_dec (p mod C + i) C) as [Hs|Hw].
  - rewrite (mod_add_small p C i) by lia.
    rewrite decide_False by lia. rewrite decide_True by lia.
    rewrite lookup_take_lt by lia. f_equal. lia.
  - rewrite (mod_add_wrap p C i) by lia.
    rewrite decide_True by lia. rewrite lookup_drop. f_equal. lia.
Qed.

Lemma ring_put_lookup_out m p data x :
  Z.of_nat (length data) <= C ->
  (forall i, 0 <= i < Z.of_nat (length data) -> x <> ring + (p + i) mod C) ->
  ring_put q m p data !! x = m !! x.
Proof.
  intros Hlen Hx. unfold ring_put.
  pose proof (Z.mod_pos_bound p C HC) as Hoff.
  rewrite !map_bytes_lookup, length_take, length_drop.
  case_decide as H2.
  - exfalso. apply (Hx (x - ring + (C - p mod C))); [lia|].
    rewrite (mod_add_wrap p C) by lia. lia.
  - case_decide as H1; [|done].
    exfalso. apply (Hx (x - ring - p mod C)); [lia|].
    rewrite (mod_add_small p C) by lia. lia.
Qed.

Lemma ring_put_lookup_outside m p data x :
  Z.of_nat (length data) <= C -> ~ (ring <= x < ring + C) ->
  ring_put q m p data !! x = m !! x.
Proof.
  intros Hlen Hx. apply ring_put_lookup_out; [done|].
  intros i Hi ->. pose proof (Z.mod_pos_bound (p + i) C HC). lia.
Qed.

Lemma ring_put_is_Some m p data x :
  is_Some (m !! x) -> is_Some (ring_put q m p data !! x).
Proof. intros H. unfold ring_put. by do 2 apply is_Some_map_bytes. Qed.

Lemma ring_get_length m p n :
  mapped m ring C = true -> 0 <= n <= C ->
  Z.of_nat (length (ring_get q m p n)) = n.
Proof.
  intros Hm Hn. unfold ring_get.
  pose proof (Z.mod_pos_bound p C HC) as Hoff.
  set (h := Z.min n (C - p mod C)).
  destruct (load_bytes_is_Some m (ring + p mod C) (Z.to_nat h)) as [l1 E1].
  { intros i Hi. rewrite <- Z.add_assoc.
    apply mapped_lookup with (n := C); [done|lia]. }
  destruct (load_bytes_is_Some m ring (Z.to_nat (n - h))) as [l2 E2].
  { intros i Hi. apply mapped_lookup with (n := C); [done|lia]. }
  rewrite E1, E2. simpl. rewrite length_app.
  rewrite (load_bytes_length _ _ _ _ E1), (load_bytes_length _ _ _ _ E2). lia.
Qed.

Lemma ring_get_lookup m p n i :
  mapped m ring C = true -> 0 <= n <= C -> 0 <= i < n ->
  ring_get q m p n !! Z.to_nat i = m !! (ring + (p + i) mod C).
Proof.
  intros Hm Hn Hi. unfold ring_get.
  pose proof (Z.mod_pos_bound p C HC) as Hoff.
  set (h := Z.min n (C - p mod C)).
  destruct (load_bytes_is_Some m (ring + p mod C) (Z.to_nat h)) as [l1 E1].
  { intros j Hj. rewrite <- Z.add_assoc.
    apply mapped_lookup with (n := C); [done|lia]. }
  destruct (load_bytes_is_Some m ring (Z.to_nat (n - h))) as [l2 E2].
  { intros j Hj. apply mapped_lookup with (n := C); [done|lia]. }
  rewrite E1, E2. simpl.
  pose proof (load_bytes_length _ _ _ _ E1) as L1.
  pose proof (load_bytes_length _ _ _ _ E2) as L2.
  destruct (Z_lt_le_dec (p mod C + i) C) as [Hs|Hw].
  - rewrite (mod_add_small p C i) by lia.
    rewrite lookup_app_l by lia.
    rewrite <- (load_bytes_lookup _ _ _ _ _ E1) by lia. f_equal. lia.
  - rewrite (mod_add_wrap p C i) by lia.
    rewrite lookup_app_r by lia.
    rewrite <- (load_bytes_lookup _ _ _ _ _ E2) by lia. f_equal. lia.
Qed.

Lemma ring_get_put m p data :
  mapped m ring C = true -> Z.of_nat (length data) <= C ->
  ring_get q (ring_put q m p data) p (Z.of_nat (length data)) = data.
Proof.
  intros Hm Hlen.
  assert (Hm' : mapped (ring_put q m p data) ring C = true).
  { unfold ring_put. by do 2 apply mapped_map_bytes. }
  assert (Hn : 0 <= Z.of_nat (length data) <= C) by lia.
  apply list_eq. intros i.
  pose proof (ring_get_length _ p _ Hm' Hn) as L.
  destruct (decide (i < length data)%nat) as [Hi|Hi].
  - assert (Hi' : 0 <= Z.of_nat i < Z.of_nat (length data)) by lia.
    pose proof (ring_get_lookup _ p _ _ Hm' Hn Hi') as G.
    rewrite Nat2Z.id in G. rewrite G.
    rewrite ring_put_lookup_in by lia. by rewrite Nat2Z.id.
  - rewrite !lookup_ge_None_2 by lia. done.
Qed.

End Ring.

(** ** The conditions of the data model, taken apart *)

Lemma counters_mapped_elim q m :
  counters_mapped q m = true ->
  mapped m (mReadPtr q) 8 = true /\ mapped m (mWritePtr q) 8 = true.
Proof. unfold counters_mapped. by rewrite andb_true_iff. Qed.

Lemma well_formed_elim q m :
  well_formed q m = true ->
  isValid q = true /\ 0 < getSize (mDesc q) /\ counters_mapped q m = true
  /\ mapped m (mRing q) (getSize (mDesc q)) = true
  /\ apart (mReadPtr q) 8 (mWritePtr q) 8 = true
  /\ apart (mReadPtr q) 8 (mRing q) (getSize (mDesc q)) = true
  /\ apart (mWritePtr q) 8 (mRing q) (getSize (mDesc q)) = true.
Proof.
  unfold well_formed. rewrite !andb_true_iff, Z.ltb_lt. tauto.
Qed.

Lemma array_of_elim sizeofT data count :
  array_of sizeofT data count = true ->
  0 < sizeofT /\ 0 <= count /\ Z.of_nat (length data) = sizeofT * count
  /\ sizeofT * count <= SIZE_MAX.
Proof.
  unfold array_of. rewrite !andb_true_iff, Z.ltb_lt, Z.leb_le, Z.eqb_eq, Z.leb_le.
  tauto.
Qed.

Lemma apart_elim a n b k : apart a n b k = true -> a + n <= b \/ b + k <= a.
Proof. unfold apart. rewrite orb_true_iff, !Z.leb_le. tauto. Qed.

Lemma apart_sym a n b k : apart a n b k = apart b k a n.
Proof. unfold apart. apply orb_comm. Qed.

(** ** Equations of the methods *)

Ltac norm_trace := rewrite <- ?app_assoc; cbn [app].

Lemma availableToRead_eq q w :
  counters_mapped q (mem w) = true ->
  availableToRead q w =
    Ok (occupancy q (mem w),
        World (mem w)
          (trace w ++ [AtomicLoad (mWritePtr q) memory_order_relaxed;
                       AtomicLoad (mReadPtr q) memory_order_relaxed])).
Proof.
  intros [Hr Hw]%counters_mapped_elim.
  unfold availableToRead, bind. rewrite atomic_load_eq by done.
  rewrite atomic_load_eq by done. cbn [mem trace ret]. norm_trace. done.
Qed.

Lemma availableToWrite_eq q w :
  counters_mapped q (mem w) = true ->
  availableToWrite q w =
    Ok (wrap64 (getSize (mDesc q) - occupancy q (mem w)),
        World (mem w)
          (trace w ++ [AtomicLoad (mWritePtr q) memory_order_relaxed;
                       AtomicLoad (mReadPtr q) memory_order_relaxed])).
Proof.
  intros H. unfold availableToWrite, bind. by rewrite availableToRead_eq.
Qed.

Lemma beginWrite_eq q n w :
  counters_mapped q (mem w) = true -> 0 < getSize (mDesc q) ->
  let C := getSize (mDesc q) in
  let off := writePos q (mem w) mod C in
  beginWrite q n w =
    Ok (if C - off <? n
        then transaction.mk (region.mk (mRing q + off) (C - off))
                            (region.mk (mRing q) (wrap64 (n - (C - off))))
        else transaction.mk (region.mk (mRing q + off) n) (region.mk 0 0),
        World (mem w)
          (trace w ++ [AtomicLoad (mReadPtr q) memory_order_acquire;
                       AtomicLoad (mWritePtr q) memory_order_relaxed])).
Proof.
  intros [Hr Hw]%counters_mapped_elim HC C off.
  unfold beginWrite, bind. rewrite atomic_load_eq by done.
  rewrite atomic_load_eq by done. cbn [mem trace].
  unfold umod. fold C. destruct (Z.eqb_spec C 0) as [?|_]; [lia|].
  fold (writePos q (mem w)). fold off.
  pose proof (Z.mod_pos_bound (writePos q (mem w)) C HC) as Hoff. fold off in Hoff.
  pose proof (getSize_range (mDesc q)) as HCr. fold C in HCr.
  rewrite (wrap64_small (C - off)) by lia.
  norm_trace. by destruct (C - off <? n).
Qed.

Lemma beginRead_eq q n w :
  counters_mapped q (mem w) = true -> 0 < getSize (mDesc q) ->
  let C := getSize (mDesc q) in
  let off := readPos q (mem w) mod C in
  beginRead q n w =
    Ok (if C - off <? n
        then transaction.mk (region.mk (mRing q + off) (C - off))
                            (region.mk (mRing q) (wrap64 (n - (C - off))))
        else transaction.mk (region.mk (mRing q + off) n) (region.mk 0 0),
        World (mem w)
          (trace w ++ [AtomicLoad (mWritePtr q) memory_order_acquire;
                       AtomicLoad (mReadPtr q) memory_order_relaxed])).
Proof.
  intros [Hr Hw]%counters_mapped_elim HC C off.
  unfold beginRead, bind. rewrite atomic_load_eq by done.
  rewrite atomic_load_eq by done. cbn [mem trace].
  unfold umod. fold C. destruct (Z.eqb_spec C 0) as [?|_]; [lia|].
  fold (readPos q (mem w)). fold off.
  pose proof (Z.mod_pos_bound (readPos q (mem w)) C HC) as Hoff. fold off in Hoff.
  pose proof (getSize_range (mDesc q)) as HCr. fold C in HCr.
  rewrite (wrap64_small (C - off)) by lia.
  norm_trace. by destruct (C - off <? n).
Qed.

Lemma commitWrite_eq q n w :
  mapped (mem w) (mWritePtr q) 8 = true ->
  commitWrite q n w =
    Ok (tt,
        World (map_bytes (mem w) (mWritePtr q)
                 (le_bytes 8 (wrap64 (writePos q (mem w) + n))))
          (trace w ++ [AtomicLoad (mWritePtr q) memory_order_relaxed;
                       AtomicStore (mWritePtr q)
                         (wrap64 (writePos q (mem w) + n))
                         memory_order_release])).
Proof.
  intros Hw. unfold commitWrite, bind. rewrite atomic_load_eq by done.
  rewrite atomic_store_eq by done. cbn [mem trace]. norm_trace. done.
Qed.

Lemma commitRead_eq q n w :
  mapped (mem w) (mReadPtr q) 8 = true ->
  commitRead q n w =
    Ok (tt,
        World (map_bytes (mem w) (mReadPtr q)
                 (le_bytes 8 (wrap64 (readPos q (mem w) + n))))
          (trace w ++ [AtomicLoad (mReadPtr q) memory_order_relaxed;
                       AtomicStore (mReadPtr q)
                         (wrap64 (readPos q (mem w) + n))
                         memory_order_release])).
Proof.
  intros Hw. unfold commitRead, bind. rewrite atomic_load_eq by done.
  rewrite atomic_store_eq by done. cbn [mem trace]. norm_trace. done.
Qed.

Lemma mapped_sub m a n b k :
  mapped m a n = true -> a <= b -> 0 <= k -> b + k <= a + n ->
  mapped m b k = true.
Proof.
  intros H Hb Hk Hle. apply mapped_intro. intros i Hi.
  replace (b + i) with (a + (b - a + i)) by lia.
  apply mapped_lookup with (n := n); [done|lia].
Qed.

Lemma mapped_zero m a : mapped m a 0 = true.
Proof. done. Qed.

Lemma writePos_ring_put q m p data :
  0 < getSize (mDesc q) ->
  Z.of_nat (length data) <= getSize (mDesc q) ->
  apart (mWritePtr q) 8 (mRing q) (getSize (mDesc q)) = true ->
  writePos q (ring_put q m p data) = writePos q m.
Proof.
  intros HC Hlen Ha%apart_elim. unfold writePos, word_at.
  rewrite (load_bytes_ext (ring_put q m p data) m); [done|].
  intros i Hi. apply ring_put_lookup_outside; [done..|lia].
Qed.

Lemma readPos_ring_put q m p data :
  0 < getSize (mDesc q) ->
  Z.of_nat (length data) <= getSize (mDesc q) ->
  apart (mReadPtr q) 8 (mRing q) (getSize (mDesc q)) = true ->
  readPos q (ring_put q m p data) = readPos q m.
Proof.
  intros HC Hlen Ha%apart_elim. unfold readPos, word_at.
  rewrite (load_bytes_ext (ring_put q m p data) m); [done|].
  intros i Hi. apply ring_put_lookup_outside; [done..|lia].
Qed.

Lemma mapped_ring_put q m p data a n :
  mapped m a n = true -> mapped (ring_put q m p data) a n = true.
Proof. intros H. unfold ring_put. by do 2 apply mapped_map_bytes. Qed.

Lemma writeBytes_eq q data n w :
  well_formed q (mem w) = true ->
  0 <= n <= getSize (mDesc q) -> n <= Z.of_nat (length data) ->
  let W := writePos q (mem w) in
  writeBytes q data n w =
    Ok (n,
        World (map_bytes (ring_put q (mem w) W (take (Z.to_nat n) data))
                 (mWritePtr q) (le_bytes 8 (wrap64 (W + n))))
          (trace w ++ [AtomicLoad (mReadPtr q) memory_order_acquire;
                       AtomicLoad (mWritePtr q) memory_order_relaxed;
                       AtomicLoad (mWritePtr q) memory_order_relaxed;
                       AtomicStore (mWritePtr q) (wrap64 (W + n))
                         memory_order_release])).
Proof.
  intros Hwf Hn Hlen W.
  destruct (well_formed_elim _ _ Hwf) as (_ & HC & Hcm & Hring & _ & _ & Hwr).
  destruct (counters_mapped_elim _ _ Hcm) as [Hrp Hwp].
  pose proof (getSize_range (mDesc q)) as HCr.
  pose proof (Z.mod_pos_bound W _ HC) as Hoff.
  assert (Hput : forall d, Z.of_nat (length d) <= getSize (mDesc q) ->
            writePos q (ring_put q (mem w) W d) = W).
  { intros d Hd. by apply writePos_ring_put. }
  unfold writeBytes, bind. rewrite beginWrite_eq by done. fold W.
  set (C := getSize (mDesc q)) in *. set (off := W mod C) in *.
  destruct (Z.ltb_spec (C - off) n) as [Hwrap|Hfit];
    cbn [transaction.first transaction.second region.address region.length].
  - rewrite (wrap64_small (n - (C - off))) by lia.
    rewrite memcpy_out_eq; cbn [mem trace]; try lia.
    2:{ apply mapped_sub with (a := mRing q) (n := C); [done|lia..]. }
    rewrite memcpy_out_eq; cbn [mem trace]; try lia.
    2:{ apply mapped_map_bytes.
        apply mapped_sub with (a := mRing q) (n := C); [done|lia..]. }
    replace (C - off + (n - (C - off))) with n by lia.
    rewrite (wrap64_small n) by lia.
    assert (E : map_bytes
                  (map_bytes (mem w) (mRing q + off)
                     (take (Z.to_nat (C - off)) (drop (Z.to_nat 0) data)))
                  (mRing q)
                  (take (Z.to_nat (n - (C - off))) (drop (Z.to_nat (C - off)) data))
                = ring_put q (mem w) W (take (Z.to_nat n) data)).
    { unfold ring_put. fold C off. change (Z.to_nat 0) with 0%nat.
      rewrite drop_0, take_take, take_drop_commute.
      replace (Z.to_nat (C - off) + Z.to_nat (n - (C - off)))%nat
        with (Z.to_nat n) by lia.
      by replace (Z.to_nat (C - off) `min` Z.to_nat n)%nat
        with (Z.to_nat (C - off)) by lia. }
    rewrite E. rewrite commitWrite_eq; cbn [mem trace].
    2:{ by apply mapped_ring_put. }
    rewrite Hput by (rewrite length_take; lia). norm_trace. done.
  - rewrite memcpy_out_eq; cbn [mem trace]; try lia.
    2:{ apply mapped_sub with (a := mRing q) (n := C); [done|lia..]. }
    rewrite memcpy_out_eq; cbn [mem trace]; try lia.
    2:{ apply mapped_zero. }
    rewrite Z.add_0_r, (wrap64_small n) by lia.
    assert (E : map_bytes
                  (map_bytes (mem w) (mRing q + off)
                     (take (Z.to_nat n) (drop (Z.to_nat 0) data)))
                  0 (take (Z.to_nat 0) (drop (Z.to_nat n) data))
                = ring_put q (mem w) W (take (Z.to_nat n) data)).
    { unfold ring_put. fold C off. change (Z.to_nat 0) with 0%nat.
      rewrite drop_0, take_0, take_take.
      rewrite (drop_ge (take _ _)) by (rewrite length_take; lia).
      cbn [map_bytes].
      by replace (Z.to_nat (C - off) `min` Z.to_nat n)%nat
        with (Z.to_nat n) by lia. }
    rewrite E. rewrite commitWrite_eq; cbn [mem trace].
    2:{ by apply mapped_ring_put. }
    rewrite Hput by (rewrite length_take; lia). norm_trace. done.
Qed.

Lemma mapped_load m a n :
  mapped m a n = true -> exists l, load_bytes m a (Z.to_nat n) = Some l.
Proof. unfold mapped. destruct (load_bytes m a (Z.to_nat n)); [eauto|done]. Qed.

Lemma readBytes_eq q data n w :
  well_formed q (mem w) = true ->
  0 <= n <= getSize (mDesc q) -> n <= Z.of_nat (length data) ->
  let R := readPos q (mem w) in
  readBytes q data n w =
    Ok ((n, ring_get q (mem w) R n ++ drop (Z.to_nat n) data),
        World (map_bytes (mem w) (mReadPtr q) (le_bytes 8 (wrap64 (R + n))))
          (trace w ++ [AtomicLoad (mWritePtr q) memory_order_acquire;
                       AtomicLoad (mReadPtr q) memory_order_relaxed;
                       AtomicLoad (mReadPtr q) memory_order_relaxed;
                       AtomicStore (mReadPtr q) (wrap64 (R + n))
                         memory_order_release])).
Proof.
  intros Hwf Hn Hlen R.
  destruct (well_formed_elim _ _ Hwf) as (_ & HC & Hcm & Hring & _ & _ & _).
  destruct (counters_mapped_elim _ _ Hcm) as [Hrp Hwp].
  pose proof (getSize_range (mDesc q)) as HCr.
  pose proof (Z.mod_pos_bound R _ HC) as Hoff.
  unfold readBytes, bind. rewrite beginRead_eq by done. fold R.
  unfold ring_get.
  set (C := getSize (mDesc q)) in *. set (off := R mod C) in *.
  destruct (Z.ltb_spec (C - off) n) as [Hwrap|Hfit];
    cbn [transaction.first transaction.second region.address region.length].
  - rewrite (wrap64_small (n - (C - off))) by lia.
    rewrite Z.min_r by lia.
    destruct (mapped_load (mem w) (mRing q + off) (C - off)) as [l1 E1].
    { apply mapped_sub with (a := mRing q) (n := C); [done|lia..]. }
    destruct (mapped_load (mem w) (mRing q) (n - (C - off))) as [l2 E2].
    { apply mapped_sub with (a := mRing q) (n := C); [done|lia..]. }
    pose proof (load_bytes_length _ _ _ _ E1) as L1.
    rewrite (memcpy_in_eq _ _ _ _ _ l1); cbn [mem trace]; try done; try lia.
    rewrite (memcpy_in_eq _ _ _ _ _ l2); cbn [mem trace]; try done; try lia.
    2:{ rewrite !length_app, length_drop. lia. }
    replace (C - off + (n - (C - off))) with n by lia.
    rewrite (wrap64_small n) by lia.
    rewrite commitRead_eq by done. cbn [mem trace]. norm_trace.
    rewrite E1, E2. unfold ret. cbn [default from_option id].
    fold (readPos q (mem w)). fold R.
    do 3 f_equal. change (Z.to_nat 0) with 0%nat. rewrite take_0. cbn [app].
    rewrite Z.add_0_l. rewrite take_app_length' by lia.
    rewrite drop_app_ge by lia. rewrite drop_drop, <- ?app_assoc.
    do 3 f_equal. lia.
  - rewrite Z.min_l by lia. rewrite Z.sub_diag.
    destruct (mapped_load (mem w) (mRing q + off) n) as [l1 E1].
    { apply mapped_sub with (a := mRing q) (n := C); [done|lia..]. }
    pose proof (load_bytes_length _ _ _ _ E1) as L1.
    rewrite (memcpy_in_eq _ _ _ _ _ l1); cbn [mem trace]; try done; try lia.
    rewrite (memcpy_in_eq _ _ _ _ _ []); cbn [mem trace]; try done; try lia.
    2:{ rewrite !length_app, length_drop. lia. }
    rewrite Z.add_0_r, (wrap64_small n) by lia.
    rewrite commitRead_eq by done. cbn [mem trace]. norm_trace.
    rewrite E1. unfold ret. cbn [default from_option id load_bytes Z.to_nat].
    fold (readPos q (mem w)). fold R.
    do 3 f_equal. change (Z.to_nat 0) with 0%nat. rewrite take_0. cbn [app].
    rewrite take_drop, Z.add_0_l. reflexivity.
Qed.

Lemma write_refuse_eq sizeofT q data count w :
  counters_mapped q (mem w) = true ->
  wrap64 (getSize (mDesc q) - occupancy q (mem w)) < wrap64 (sizeofT * count) ->
  write sizeofT q data count w =
    Ok (false,
        World (mem w)
          (trace w ++ [AtomicLoad (mWritePtr q) memory_order_relaxed;
                       AtomicLoad (mReadPtr q) memory_order_relaxed])).
Proof.
  intros Hcm Hlt. unfold write, bind. rewrite availableToWrite_eq by done.
  destruct (Z.ltb_spec (wrap64 (getSize (mDesc q) - occupancy q (mem w)))
              (wrap64 (sizeofT * count))); [done|lia].
Qed.

Lemma read_refuse_eq sizeofT q data count w :
  counters_mapped q (mem w) = true ->
  occupancy q (mem w) < wrap64 (sizeofT * count) ->
  read sizeofT q data count w =
    Ok ((false, data),
        World (mem w)
          (trace w ++ [AtomicLoad (mWritePtr q) memory_order_relaxed;
                       AtomicLoad (mReadPtr q) memory_order_relaxed])).
Proof.
  intros Hcm Hlt. unfold read, bind. rewrite availableToRead_eq by done.
  destruct (Z.ltb_spec (occupancy q (mem w)) (wrap64 (sizeofT * count)));
    [done|lia].
Qed.

Lemma occupancy_range q m : 0 <= occupancy q m < 2 ^ 64.
Proof. apply wrap64_range. Qed.

Lemma write_accept_eq sizeofT q data count w :
  well_formed q (mem w) = true ->
  occupancy q (mem w) <= getSize (mDesc q) ->
  array_of sizeofT data count = true ->
  sizeofT * count <= getSize (mDesc q) - occupancy q (mem w) ->
  let W := writePos q (mem w) in
  write sizeofT q data count w =
    Ok (true,
        World (map_bytes (ring_put q (mem w) W data) (mWritePtr q)
                 (le_bytes 8 (wrap64 (W + sizeofT * count))))
          (trace w ++ [AtomicLoad (mWritePtr q) memory_order_relaxed;
                       AtomicLoad (mReadPtr q) memory_order_relaxed;
                       AtomicLoad (mReadPtr q) memory_order_acquire;
                       AtomicLoad (mWritePtr q) memory_order_relaxed;
                       AtomicLoad (mWritePtr q) memory_order_relaxed;
                       AtomicStore (mWritePtr q) (wrap64 (W + sizeofT * count))
                         memory_order_release])).
Proof.
  intros Hwf Hocc Harr Hfit W.
  destruct (well_formed_elim _ _ Hwf) as (_ & HC & Hcm & _).
  destruct (array_of_elim _ _ _ Harr) as (HT & Hcount & Hlen & Hmax).
  pose proof (getSize_range (mDesc q)) as HCr.
  pose proof (occupancy_range q (mem w)) as Ho.
  unfold SIZE_MAX in Hmax.
  assert (Hsz : 0 <= sizeofT * count) by lia.
  unfold write, bind. rewrite availableToWrite_eq by done.
  rewrite (wrap64_small (sizeofT * count)) by lia.
  rewrite (wrap64_small (getSize (mDesc q) - occupancy q (mem w))) by lia.
  destruct (Z.ltb_spec (getSize (mDesc q) - occupancy q (mem w))
              (sizeofT * count)) as [?|_]; [lia|].
  rewrite writeBytes_eq; cbn [mem trace]; try done; try lia.
  rewrite Z.eqb_refl. rewrite take_ge by lia. fold W. norm_trace. done.
Qed.

Lemma read_accept_eq sizeofT q data count w :
  well_formed q (mem w) = true ->
  occupancy q (mem w) <= getSize (mDesc q) ->
  array_of sizeofT data count = true ->
  sizeofT * count <= occupancy q (mem w) ->
  let R := readPos q (mem w) in
  read sizeofT q data count w =
    Ok ((true, ring_get q (mem w) R (sizeofT * count)),
        World (map_bytes (mem w) (mReadPtr q)
                 (le_bytes 8 (wrap64 (R + sizeofT * count))))
          (trace w ++ [AtomicLoad (mWritePtr q) memory_order_relaxed;
                       AtomicLoad (mReadPtr q) memory_order_relaxed;
                       AtomicLoad (mWritePtr q) memory_order_acquire;
                       AtomicLoad (mReadPtr q) memory_order_relaxed;
                       AtomicLoad (mReadPtr q) memory_order_relaxed;
                       AtomicStore (mReadPtr q) (wrap64 (R + sizeofT * count))
                         memory_order_release])).
Proof.
  intros Hwf Hocc Harr Hfit R.
  destruct (well_formed_elim _ _ Hwf) as (_ & HC & Hcm & _).
  destruct (array_of_elim _ _ _ Harr) as (HT & Hcount & Hlen & Hmax).
  pose proof (getSize_range (mDesc q)) as HCr.
  pose proof (occupancy_range q (mem w)) as Ho.
  unfold SIZE_MAX in Hmax.
  assert (Hsz : 0 <= sizeofT * count) by lia.
  unfold read, bind. rewrite availableToRead_eq by done.
  rewrite (wrap64_small (sizeofT * count)) by lia.
  destruct (Z.ltb_spec (occupancy q (mem w)) (sizeofT * count)) as [?|_]; [lia|].
  rewrite readBytes_eq; cbn [mem trace]; try done; try lia.
  cbn [fst snd]. rewrite Z.eqb_refl. rewrite drop_ge by lia. rewrite app_nil_r.
  fold R. norm_trace. done.
Qed.

(** ** The state after a write and after a read *)

Lemma well_formed_mono q m m' :
  (forall x, is_Some (m !! x) -> is_Some (m' !! x)) ->
  well_formed q m = true -> well_formed q m' = true.
Proof.
  intros Hm Hwf.
  assert (Hmapped : forall a n, mapped m a n = true -> mapped m' a n = true).
  { intros a n H. apply mapped_intro. intros i Hi. apply Hm.
    by apply mapped_lookup with (n := n). }
  destruct (well_formed_elim _ _ Hwf) as (Hv & HC & Hcm & Hring & H1 & H2 & H3).
  destruct (counters_mapped_elim _ _ Hcm) as [Hrp Hwp].
  unfold well_formed, counters_mapped.
  rewrite Hv, H1, H2, H3, (Hmapped _ _ Hrp), (Hmapped _ _ Hwp), (Hmapped _ _ Hring).
  apply Z.ltb_lt in HC. rewrite HC. reflexivity.
Qed.

Section AfterWrite.
Variables (q : MessageQueue) (m : gmap Z byte) (data : list byte) (v : Z).
Hypothesis Hwf : well_formed q m = true.
Hypothesis Hlen : Z.of_nat (length data) <= getSize (mDesc q).

Abbreviation m' :=
  (map_bytes (ring_put q m (writePos q m) data) (mWritePtr q) (le_bytes 8 v))
  (only parsing).

Lemma after_write_writePos : writePos q m' = wrap64 v.
Proof. apply word_at_map_bytes_same. Qed.

Lemma after_write_readPos : readPos q m' = readPos q m.
Proof.
  destruct (well_formed_elim _ _ Hwf) as (_ & HC & _ & _ & H1 & H2 & _).
  unfold m', readPos. rewrite word_at_map_bytes_apart.
  - by apply readPos_ring_put.
  - by rewrite length_le_bytes.
Qed.

Lemma after_write_ring i :
  0 <= i < Z.of_nat (length data) ->
  m' !! (mRing q + (writePos q m + i) mod getSize (mDesc q))
  = data !! Z.to_nat i.
Proof.
  intros Hi.
  destruct (well_formed_elim _ _ Hwf) as (_ & HC & _ & _ & _ & _ & H3).
  apply apart_elim in H3.
  pose proof (Z.mod_pos_bound (writePos q m + i) _ HC).
  unfold m'. rewrite map_bytes_lookup, length_le_bytes.
  rewrite decide_False by (change (Z.of_nat 8) with 8; lia).
  by apply ring_put_lookup_in.
Qed.

Lemma after_write_frame x :
  ~ (mWritePtr q <= x < mWritePtr q + 8) ->
  (forall i, 0 <= i < Z.of_nat (length data) ->
             x <> mRing q + (writePos q m + i) mod getSize (mDesc q)) ->
  m' !! x = m !! x.
Proof.
  intros Hx Hi.
  destruct (well_formed_elim _ _ Hwf) as (_ & HC & _).
  unfold m'. rewrite map_bytes_lookup, length_le_bytes.
  rewrite decide_False by (change (Z.of_nat 8) with 8; lia).
  by apply ring_put_lookup_out.
Qed.

Lemma after_write_well_formed : well_formed q m' = true.
Proof.
  apply (well_formed_mono q m); [|done]. intros x Hx.
  unfold m'. apply is_Some_map_bytes. by apply ring_put_is_Some.
Qed.

End AfterWrite.

Section AfterRead.
Variables (q : MessageQueue) (m : gmap Z byte) (v : Z).
Hypothesis Hwf : well_formed q m = true.

Abbreviation m' := (map_bytes m (mReadPtr q) (le_bytes 8 v)) (only parsing).

Lemma after_read_readPos : readPos q m' = wrap64 v.
Proof. apply word_at_map_bytes_same. Qed.

Lemma after_read_writePos : writePos q m' = writePos q m.
Proof.
  destruct (well_formed_elim _ _ Hwf) as (_ & _ & _ & _ & H1 & _).
  unfold m', writePos. rewrite word_at_map_bytes_apart; [done|].
  by rewrite length_le_bytes, apart_sym.
Qed.

Lemma after_read_frame x :
  ~ (mReadPtr q <= x < mReadPtr q + 8) -> m' !! x = m !! x.
Proof.
  intros Hx. unfold m'. rewrite map_bytes_lookup, length_le_bytes.
  by rewrite decide_False by (change (Z.of_nat 8) with 8; lia).
Qed.

Lemma after_read_well_formed : well_formed q m' = true.
Proof.
  apply (well_formed_mono q m); [|done]. intros x Hx.
  unfold m'. by apply is_Some_map_bytes.
Qed.

End AfterRead.

(** * The scenarios of the specification, run on the embedding *)

(** S1: C = 16, Q = 1, from W = R = 0. *)
Example scenario_S1 :
  exists w1 w2 w3,
    write 1 (example_queue 16 1) (bytes_of [1; 2; 3; 4; 5]) 5
      (World (example_mem 16 0 0) []) = Ok (true, w1)
    /\ availableToRead (example_queue 16 1) w1 = Ok (5, w2)
    /\ read 1 (example_queue 16 1) (zeros 5) 5 w2
       = Ok ((true, bytes_of [1; 2; 3; 4; 5]), w3)
    /\ writePos (example_queue 16 1) (mem w3) = 5
    /\ readPos (example_queue 16 1) (mem w3) = 5.
Proof.
  eexists _, _, _.
  split; [vm_compute; reflexivity|].
  split; [vm_compute; reflexivity|].
  split; [vm_compute; reflexivity|].
  split; vm_compute; reflexivity.
Qed.

(** The refusals of S2, with five bytes unread (W = 5, R = 0) so that 11
    bytes are free. *)
Example scenario_S2 :
  exists w1 w2 w3 w4,
    write 1 (example_queue 16 1) (bytes_of (replicate 14 10)) 14
      (World (example_mem 16 0 5) []) = Ok (false, w1)
    /\ write 1 (example_queue 16 1) (bytes_of (replicate 11 10)) 11 w1
       = Ok (true, w2)
    /\ availableToWrite (example_queue 16 1) w2 = Ok (0, w3)
    /\ write 1 (example_queue 16 1) (bytes_of [1]) 1 w3 = Ok (false, w4).
Proof.
  eexists _, _, _, _.
  split; [vm_compute; reflexivity|].
  split; [vm_compute; reflexivity|].
  split; [vm_compute; reflexivity|].
  vm_compute. reflexivity.
Qed.

(** S3: C = 8, Q = 1, a write that wraps at the end of the ring. *)
Example scenario_S3 :
  exists w1 w2 w3 w4,
    write 1 (example_queue 8 1) (bytes_of [1; 2; 3; 4; 5; 6]) 6
      (World (example_mem 8 0 0) []) = Ok (true, w1)
    /\ read 1 (example_queue 8 1) (zeros 4) 4 w1
       = Ok ((true, bytes_of [1; 2; 3; 4]), w2)
    /\ write 1 (example_queue 8 1) (bytes_of [7; 8; 9; 10]) 4 w2
       = Ok (true, w3)
    /\ read 1 (example_queue 8 1) (zeros 6) 6 w3
       = Ok ((true, bytes_of [5; 6; 7; 8; 9; 10]), w4)
    /\ writePos (example_queue 8 1) (mem w4) = 10
    /\ readPos (example_queue 8 1) (mem w4) = 10.
Proof.
  eexists _, _, _, _.
  split; [vm_compute; reflexivity|].
  split; [vm_compute; reflexivity|].
  split; [vm_compute; reflexivity|].
  split; [vm_compute; reflexivity|].
  split; vm_compute; reflexivity.
Qed.

(** * Capacity queries *)

(** C7. [availableToRead()] returns W - R as an unsigned 64-bit subtraction
    of the two counters, read by relaxed loads, and [availableToWrite()]
    returns C minus that; neither changes the address space. When W - R = C,
    [availableToWrite()] returns 0 and a write of one record or more is
    refused, leaving the address space as it was. *)
Theorem available_counts (sizeofT : Z) (q : MessageQueue) (w : world) :
  counters_mapped q (mem w) = true ->
  let W := writePos q (mem w) in
  let R := readPos q (mem w) in
  let C := getSize (mDesc q) in
  let w' := World (mem w)
              (trace w ++ [AtomicLoad (mWritePtr q) memory_order_relaxed;
                           AtomicLoad (mReadPtr q) memory_order_relaxed]) in
  availableToRead q w = Ok (wrap64 (W - R), w')
  /\ availableToWrite q w = Ok (wrap64 (C - wrap64 (W - R)), w')
  /\ (wrap64 (W - R) = C ->
      availableToWrite q w = Ok (0, w')
      /\ forall data count,
           array_of sizeofT data count = true -> 0 < count ->
           write sizeofT q data count w = Ok (false, w')).
Proof.
  intros Hcm W R C w'. split; [|split].
  - by rewrite availableToRead_eq.
  - by rewrite availableToWrite_eq.
  - intros Hfull. split.
    + rewrite availableToWrite_eq by done. unfold occupancy. fold W R C.
      rewrite Hfull, Z.sub_diag. done.
    + intros data count Harr Hpos.
      destruct (array_of_elim _ _ _ Harr) as (HT & _ & _ & Hmax).
      unfold SIZE_MAX in Hmax.
      apply write_refuse_eq; [done|]. unfold occupancy. fold W R C.
      rewrite Hfull, Z.sub_diag. rewrite (wrap64_small (sizeofT * count)) by nia.
      change (wrap64 0) with 0. nia.
Qed.

Lemma available_counts_witness :
  counters_mapped (example_queue 16 1) (example_mem 16 5 21) = true
  /\ availableToRead (example_queue 16 1) (World (example_mem 16 5 21) [])
     = Ok (16, World (example_mem 16 5 21)
                 [AtomicLoad 8192 memory_order_relaxed;
                  AtomicLoad 4096 memory_order_relaxed])
  /\ write 1 (example_queue 16 1) (bytes_of [10]) 1
       (World (example_mem 16 5 21) [])
     = Ok (false, World (example_mem 16 5 21)
                    [AtomicLoad 8192 memory_order_relaxed;
                     AtomicLoad 4096 memory_order_relaxed]).
Proof.
  assert (H : counters_mapped (example_queue 16 1)
                (mem (World (example_mem 16 5 21) [])) = true)
    by (vm_compute; reflexivity).
  destruct (available_counts 1 _ _ H) as (Hr & _ & Hfull).
  split; [exact H|]. split; [exact Hr|].
  apply Hfull; [vm_compute; reflexivity | vm_compute; reflexivity | lia].
Defined.

(** * Flow control *)

Lemma mod_mod_add p C i : 0 < C -> (p mod C + i) mod C = (p + i) mod C.
Proof. intros HC. apply Zplus_mod_idemp_l. Qed.

(** C1. On a bound endpoint whose occupancy is within the capacity, called
    with an array of [count] records: [write] returns false and leaves the
    address space (both counters and the ring) as it was when
    [availableToWrite()] is below [count * sizeof(T)]; otherwise it returns
    true, the ring holds the bytes of [data] from offset W mod C on (modulo
    C), W has advanced by [count * sizeof(T)], and nothing else has changed.
    So [write] returns true exactly when the space suffices. [read] does the
    same against [availableToRead()] and R, delivering the ring bytes from
    offset R mod C on. *)
Theorem write_read_flow_control (sizeofT : Z) (q : MessageQueue) (w : world)
  (data : list byte) (count : Z) :
  well_formed q (mem w) = true ->
  occupancy q (mem w) <= getSize (mDesc q) ->
  array_of sizeofT data count = true ->
  let W := writePos q (mem w) in
  let R := readPos q (mem w) in
  let C := getSize (mDesc q) in
  let n := sizeofT * count in
  (exists a w0 b w',
     availableToWrite q w = Ok (a, w0)
     /\ write sizeofT q data count w = Ok (b, w')
     /\ (b = true <-> n <= a)
     /\ (b = false -> mem w' = mem w)
     /\ (b = true ->
         writePos q (mem w') = wrap64 (W + n)
         /\ readPos q (mem w') = R
         /\ (forall i, 0 <= i < n ->
               mem w' !! (mRing q + (W mod C + i) mod C) = data !! Z.to_nat i)
         /\ (forall x,
               ~ (mWritePtr q <= x < mWritePtr q + 8) ->
               (forall i, 0 <= i < n -> x <> mRing q + (W mod C + i) mod C) ->
               mem w' !! x = mem w !! x)))
  /\ (exists a w0 b out w',
        availableToRead q w = Ok (a, w0)
        /\ read sizeofT q data count w = Ok ((b, out), w')
        /\ (b = true <-> n <= a)
        /\ (b = false -> out = data /\ mem w' = mem w)
        /\ (b = true ->
            readPos q (mem w') = wrap64 (R + n)
            /\ writePos q (mem w') = W
            /\ length out = length data
            /\ (forall i, 0 <= i < n ->
                  out !! Z.to_nat i = mem w !! (mRing q + (R mod C + i) mod C))
            /\ (forall x,
                  ~ (mReadPtr q <= x < mReadPtr q + 8) ->
                  mem w' !! x = mem w !! x))).
Proof.
  intros Hwf Hocc Harr. cbv zeta.
  destruct (well_formed_elim _ _ Hwf) as (_ & HC & Hcm & Hring & _).
  destruct (array_of_elim _ _ _ Harr) as (HT & Hcount & Hlen & Hmax).
  pose proof (getSize_range (mDesc q)) as HCr.
  pose proof (occupancy_range q (mem w)) as Ho.
  unfold SIZE_MAX in Hmax.
  assert (Hn : 0 <= sizeofT * count) by nia.
  assert (Ha : wrap64 (getSize (mDesc q) - occupancy q (mem w))
               = getSize (mDesc q) - occupancy q (mem w))
    by (apply wrap64_small; lia).
  assert (Hs : wrap64 (sizeofT * count) = sizeofT * count)
    by (apply wrap64_small; lia).
  split.
  - eexists _, _. rewrite availableToWrite_eq by done.
    destruct (Z_lt_le_dec (getSize (mDesc q) - occupancy q (mem w))
                (sizeofT * count)) as [Hlt|Hge].
    + exists false. eexists. rewrite write_refuse_eq by (done || lia).
      split; [reflexivity|]. split; [reflexivity|].
      repeat split; try done; try lia.
    + exists true. eexists. rewrite write_accept_eq by done.
      split; [reflexivity|]. split; [reflexivity|].
      split; [split; [lia|done]|]. split; [done|].
      intros _. cbn [mem].
      assert (Hl : Z.of_nat (length data) <= getSize (mDesc q)) by lia.
      split; [etrans; [apply after_write_writePos
                      |apply wrap64_small, wrap64_range]|].
      split; [by apply after_write_readPos|]. split.
      * intros i Hi. rewrite mod_mod_add by done.
        apply after_write_ring; [done..|lia].
      * intros x Hx Hi. apply after_write_frame; try done.
        intros i Hi'. rewrite <- mod_mod_add by done. apply Hi. lia.
  - eexists _, _. rewrite availableToRead_eq by done.
    destruct (Z_lt_le_dec (occupancy q (mem w)) (sizeofT * count)) as [Hlt|Hge].
    + exists false, data. eexists. rewrite read_refuse_eq by (done || lia).
      split; [reflexivity|]. split; [reflexivity|].
      repeat split; try done; try lia.
    + exists true. do 2 eexists. rewrite read_accept_eq by done.
      split; [reflexivity|]. split; [reflexivity|].
      split; [split; [lia|done]|]. split; [done|].
      intros _. cbn [mem].
      split; [etrans; [apply after_read_readPos
                      |apply wrap64_small, wrap64_range]|].
      split; [by apply after_read_writePos|].
      assert (Hn' : 0 <= sizeofT * count <= getSize (mDesc q)) by lia.
      split; [|split].
      * apply Nat2Z.inj. rewrite ring_get_length by done. lia.
      * intros i Hi. rewrite mod_mod_add by done.
        by apply ring_get_lookup.
      * intros x Hx. by apply after_read_frame.
Qed.

Lemma write_read_flow_control_witness :
  well_formed (example_queue 8 1) (example_mem 8 4 6) = true
  /\ occupancy (example_queue 8 1) (example_mem 8 4 6) <= 8
  /\ array_of 1 (bytes_of [7; 8; 9; 10]) 4 = true
  /\ exists w',
       write 1 (example_queue 8 1) (bytes_of [7; 8; 9; 10]) 4
         (World (example_mem 8 4 6) []) = Ok (true, w')
       /\ writePos (example_queue 8 1) (mem w') = 10
       /\ mem w' !! (12288 + 1) = Some (byte_of_Z 10).
Proof.
  assert (H1 : well_formed (example_queue 8 1)
                 (mem (World (example_mem 8 4 6) [])) = true)
    by (vm_compute; reflexivity).
  assert (H2 : occupancy (example_queue 8 1)
                 (mem (World (example_mem 8 4 6) []))
               <= getSize (mDesc (example_queue 8 1)))
    by (vm_compute; discriminate).
  assert (H3 : array_of 1 (bytes_of [7; 8; 9; 10]) 4 = true)
    by (vm_compute; reflexivity).
  destruct (write_read_flow_control 1 _ _ _ _ H1 H2 H3)
    as [(a & w0 & b & w' & Ha & Hw & Hiff & _ & Hpost) _].
  vm_compute in Ha. injection Ha as <- _.
  assert (Hb : b = true) by (apply Hiff; vm_compute; discriminate).
  subst b. destruct (Hpost eq_refl) as (HW & _ & Hring & _).
  split; [exact H1|]. split; [exact H2|]. split; [exact H3|].
  exists w'. split; [exact Hw|]. split; [exact HW|].
  exact (Hring 3 ltac:(lia)).
Defined.

(** * The transaction *)

(** The two runs the code computes from position [p]: the second is the null
    region in the branch that does not wrap. *)
Lemma split_runs (ring C p n : Z) :
  0 < C -> 0 <= n < 2 ^ 64 -> C < 2 ^ 64 ->
  let off := p mod C in
  let head := Z.min n (C - off) in
  let tx := if C - off <? n
            then transaction.mk (region.mk (ring + off) (C - off))
                                (region.mk ring (wrap64 (n - (C - off))))
            else transaction.mk (region.mk (ring + off) n) (region.mk 0 0) in
  transaction.first tx = region.mk (ring + off) head
  /\ region.length (transaction.second tx) = n - head
  /\ run (transaction.second tx) = seqZ (ring + 0) (n - head)
  /\ (n - head <> 0 -> region.address (transaction.second tx) = ring + 0)
  /\ (n - head = 0 -> transaction.second tx = region.mk 0 0).
Proof.
  intros HC Hn HCmax off head tx. subst tx head.
  pose proof (Z.mod_pos_bound p C HC) as Hoff. fold off in Hoff.
  destruct (Z.ltb_spec (C - off) n) as [Hwrap|Hfit]; unfold run;
    cbn [transaction.first transaction.second region.address region.length].
  - rewrite Z.min_r by lia. rewrite wrap64_small by lia. rewrite Z.add_0_r.
    repeat split; try done; try lia.
  - rewrite Z.min_l by lia. rewrite Z.sub_diag.
    repeat split; try done; try lia.
Qed.

(** C2. For a desired length [n], [beginWrite] (from p = W) and [beginRead]
    (from p = R) compute a first run of min(n, C - p mod C) bytes at ring
    offset p mod C and a second run of the remaining n - min(n, C - p mod C)
    bytes from ring offset 0 on (the code names the second run by the null
    region when it is empty, and by the start of the ring otherwise);
    neither changes the address space. The second run is empty exactly when n <= C - p mod C: a
    request of C - p mod C bytes is one run and one byte more is two.
    [commitWrite(n)] advances W by n and [commitRead(n)] advances R by n,
    in 64-bit arithmetic, and change nothing else. *)
Theorem transaction_split (q : MessageQueue) (w : world) (n : Z) :
  well_formed q (mem w) = true ->
  0 <= n < 2 ^ 64 ->
  let C := getSize (mDesc q) in
  let W := writePos q (mem w) in
  let R := readPos q (mem w) in
  let head p := Z.min n (C - p mod C) in
  (exists tx w',
     beginWrite q n w = Ok (tx, w') /\ mem w' = mem w
     /\ transaction.first tx = region.mk (mRing q + W mod C) (head W)
     /\ region.length (transaction.second tx) = n - head W
     /\ run (transaction.second tx) = seqZ (mRing q + 0) (n - head W)
     /\ (n - head W <> 0 -> region.address (transaction.second tx) = mRing q + 0)
     /\ (n - head W = 0 -> transaction.second tx = region.mk 0 0))
  /\ (exists tx w',
        beginRead q n w = Ok (tx, w') /\ mem w' = mem w
        /\ transaction.first tx = region.mk (mRing q + R mod C) (head R)
        /\ region.length (transaction.second tx) = n - head R
        /\ run (transaction.second tx) = seqZ (mRing q + 0) (n - head R)
        /\ (n - head R <> 0 -> region.address (transaction.second tx) = mRing q + 0)
        /\ (n - head R = 0 -> transaction.second tx = region.mk 0 0))
  /\ (forall p, n - head p = 0 <-> n <= C - p mod C)
  /\ (forall p, n = C - p mod C -> head p = n /\ n - head p = 0)
  /\ (forall p, n = C - p mod C + 1 -> head p = C - p mod C /\ n - head p = 1)
  /\ (exists w',
        commitWrite q n w = Ok (tt, w')
        /\ writePos q (mem w') = wrap64 (W + n)
        /\ forall x, ~ (mWritePtr q <= x < mWritePtr q + 8) ->
                     mem w' !! x = mem w !! x)
  /\ (exists w',
        commitRead q n w = Ok (tt, w')
        /\ readPos q (mem w') = wrap64 (R + n)
        /\ forall x, ~ (mReadPtr q <= x < mReadPtr q + 8) ->
                     mem w' !! x = mem w !! x).
Proof.
  intros Hwf Hn. cbv zeta.
  destruct (well_formed_elim _ _ Hwf) as (_ & HC & Hcm & _).
  destruct (counters_mapped_elim _ _ Hcm) as [Hrp Hwp].
  pose proof (getSize_range (mDesc q)) as [_ HCmax].
  split; [|split; [|split; [|split; [|split; [|split]]]]].
  - eexists _, _. rewrite beginWrite_eq by done. split; [reflexivity|].
    split; [done|]. by apply split_runs.
  - eexists _, _. rewrite beginRead_eq by done. split; [reflexivity|].
    split; [done|]. by apply split_runs.
  - intros p. lia.
  - intros p. pose proof (Z.mod_pos_bound p _ HC). lia.
  - intros p. pose proof (Z.mod_pos_bound p _ HC). lia.
  - eexists. rewrite commitWrite_eq by done. split; [reflexivity|]. cbn [mem].
    split.
    + unfold writePos at 1. rewrite word_at_map_bytes_same.
      apply wrap64_small, wrap64_range.
    + intros x Hx. rewrite map_bytes_lookup, length_le_bytes.
      by rewrite decide_False by (change (Z.of_nat 8) with 8; lia).
  - eexists. rewrite commitRead_eq by done. split; [reflexivity|]. cbn [mem].
    split.
    + unfold readPos at 1. rewrite word_at_map_bytes_same.
      apply wrap64_small, wrap64_range.
    + intros x Hx. rewrite map_bytes_lookup, length_le_bytes.
      by rewrite decide_False by (change (Z.of_nat 8) with 8; lia).
Qed.

Lemma transaction_split_witness :
  well_formed (example_queue 8 1) (example_mem 8 4 6) = true
  /\ 0 <= 3 < 2 ^ 64
  /\ exists w1 w2,
       beginWrite (example_queue 8 1) 3 (World (example_mem 8 4 6) [])
       = Ok (transaction.mk (region.mk (12288 + 6) 2) (region.mk 12288 1), w1)
       /\ commitWrite (example_queue 8 1) 3 (World (example_mem 8 4 6) [])
          = Ok (tt, w2)
       /\ writePos (example_queue 8 1) (mem w2) = 9.
Proof.
  assert (H1 : well_formed (example_queue 8 1)
                 (mem (World (example_mem 8 4 6) [])) = true)
    by (vm_compute; reflexivity).
  assert (H2 : 0 <= 3 < 2 ^ 64) by lia.
  destruct (transaction_split _ _ 3 H1 H2)
    as ((tx & w1 & Hb & _ & Hf & Hl & _ & Ha & _) & _ & _ & _ & _
        & (w2 & Hc & HW & _) & _).
  split; [exact H1|]. split; [exact H2|]. exists w1, w2.
  split; [|split; [exact Hc | exact HW]].
  rewrite Hb. destruct tx as [f [sa sl]].
  cbn [transaction.first transaction.second region.address region.length] in *.
  rewrite Hf, Hl, (Ha ltac:(vm_compute; discriminate)). reflexivity.
Defined.

(** * Round trip *)

Lemma occupancy_after_write q m data v :
  well_formed q m = true ->
  Z.of_nat (length data) <= getSize (mDesc q) ->
  occupancy q (map_bytes (ring_put q m (writePos q m) data) (mWritePtr q)
                 (le_bytes 8 v))
  = wrap64 (wrap64 v - readPos q m).
Proof.
  intros Hwf Hlen. unfold occupancy.
  by rewrite after_write_writePos, after_write_readPos.
Qed.

Lemma occupancy_after_read q m v :
  well_formed q m = true ->
  occupancy q (map_bytes m (mReadPtr q) (le_bytes 8 v))
  = wrap64 (writePos q m - wrap64 v).
Proof.
  intros Hwf. unfold occupancy.
  by rewrite after_read_readPos, after_read_writePos.
Qed.

Lemma wrap64_add_sub p n : 0 <= n < 2 ^ 64 -> wrap64 (wrap64 (wrap64 (p + n)) - p) = n.
Proof.
  intros Hn. unfold wrap64. rewrite Z.mod_mod by lia.
  rewrite Zminus_mod_idemp_l. replace (p + n - p) with n by lia.
  by apply Z.mod_small.
Qed.

(** C3, as amended. On a bound endpoint whose queue is empty (W = R), for
    every sequence [S] of [count] records that fits the capacity, [write(S,
    count)] succeeds and the following [read(dst, count)] succeeds and
    delivers exactly [S], wherever W mod C lies and whether or not the bytes
    span the end of the ring; the queue is empty again afterwards. *)
Theorem round_trip_from_empty (sizeofT : Z) (q : MessageQueue) (w : world)
  (S dst : list byte) (count : Z) :
  well_formed q (mem w) = true ->
  writePos q (mem w) = readPos q (mem w) ->
  array_of sizeofT S count = true ->
  array_of sizeofT dst count = true ->
  sizeofT * count <= getSize (mDesc q) ->
  exists w1 w2,
    write sizeofT q S count w = Ok (true, w1)
    /\ read sizeofT q dst count w1 = Ok ((true, S), w2)
    /\ writePos q (mem w2) = readPos q (mem w2).
Proof.
  intros Hwf Hempty HS Hdst Hfit.
  destruct (well_formed_elim _ _ Hwf) as (_ & HC & Hcm & Hring & _).
  destruct (array_of_elim _ _ _ HS) as (HT & Hcount & Hlen & Hmax).
  pose proof (getSize_range (mDesc q)) as HCr.
  unfold SIZE_MAX in Hmax.
  assert (Hn : 0 <= sizeofT * count) by nia.
  assert (Hocc : occupancy q (mem w) = 0).
  { unfold occupancy. by rewrite Hempty, Z.sub_diag. }
  assert (HlenC : Z.of_nat (length S) <= getSize (mDesc q)) by lia.
  eexists _, _. rewrite write_accept_eq by (done || lia).
  split; [reflexivity|].
  set (m1 := map_bytes _ _ _).
  assert (Hwf1 : well_formed q m1 = true) by by apply after_write_well_formed.
  assert (Hocc1 : occupancy q m1 = sizeofT * count).
  { unfold m1. rewrite occupancy_after_write by done.
    rewrite <- Hempty. apply wrap64_add_sub. lia. }
  assert (HR1 : readPos q m1 = writePos q (mem w)).
  { unfold m1. rewrite after_write_readPos by done. done. }
  rewrite read_accept_eq; cbn [mem]; try done; try lia.
  rewrite HR1. split.
  - do 3 f_equal.
    assert (E : ring_get q m1 (writePos q (mem w)) (sizeofT * count) = S).
    { rewrite <- Hlen. apply list_eq. intros i.
      assert (Hm1 : mapped m1 (mRing q) (getSize (mDesc q)) = true).
      { by destruct (well_formed_elim _ _ Hwf1) as (_ & _ & _ & ? & _). }
      assert (Hr : 0 <= Z.of_nat (length S) <= getSize (mDesc q)) by lia.
      pose proof (ring_get_length q HC m1 (writePos q (mem w)) _ Hm1 Hr) as L.
      destruct (decide (i < length S)%nat) as [Hi|Hi].
      - assert (Hi' : 0 <= Z.of_nat i < Z.of_nat (length S)) by lia.
        pose proof (ring_get_lookup q HC m1 (writePos q (mem w)) _ _ Hm1 Hr Hi') as G.
        rewrite Nat2Z.id in G. rewrite G. unfold m1.
        rewrite after_write_ring by done. by rewrite Nat2Z.id.
      - rewrite !lookup_ge_None_2 by lia. done. }
    exact E.
  - cbn [mem]. rewrite after_read_readPos, after_read_writePos by done.
    unfold m1. rewrite after_write_writePos.
    by rewrite !(wrap64_small (wrap64 _)) by apply wrap64_range.
Qed.

Lemma round_trip_from_empty_witness :
  well_formed (example_queue 8 1) (example_mem 8 6 6) = true
  /\ writePos (example_queue 8 1) (example_mem 8 6 6)
     = readPos (example_queue 8 1) (example_mem 8 6 6)
  /\ array_of 1 (bytes_of [7; 8; 9; 10]) 4 = true
  /\ array_of 1 (zeros 4) 4 = true
  /\ 1 * 4 <= 8
  /\ exists w1 w2,
       write 1 (example_queue 8 1) (bytes_of [7; 8; 9; 10]) 4
         (World (example_mem 8 6 6) []) = Ok (true, w1)
       /\ read 1 (example_queue 8 1) (zeros 4) 4 w1
          = Ok ((true, bytes_of [7; 8; 9; 10]), w2)
       /\ writePos (example_queue 8 1) (mem w2)
          = readPos (example_queue 8 1) (mem w2).
Proof.
  assert (H1 : well_formed (example_queue 8 1)
                 (mem (World (example_mem 8 6 6) [])) = true)
    by (vm_compute; reflexivity).
  assert (H2 : writePos (example_queue 8 1) (mem (World (example_mem 8 6 6) []))
               = readPos (example_queue 8 1) (mem (World (example_mem 8 6 6) [])))
    by (vm_compute; reflexivity).
  assert (H3 : array_of 1 (bytes_of [7; 8; 9; 10]) 4 = true)
    by (vm_compute; reflexivity).
  assert (H4 : array_of 1 (zeros 4) 4 = true) by (vm_compute; reflexivity).
  assert (H5 : 1 * 4 <= getSize (mDesc (example_queue 8 1)))
    by (vm_compute; discriminate).
  split; [exact H1|]. split; [exact H2|]. split; [exact H3|].
  split; [exact H4|]. split; [exact H5|].
  exact (round_trip_from_empty 1 _ _ _ (zeros 4) 4 H1 H2 H3 H4 H5).
Defined.

(** C3 as stated fails on a queue that holds unread bytes: with C = 8, Q = 1,
    R = 0 and W = 1 over a zeroed ring, the record [7] fits the available
    capacity and both calls succeed, but the read delivers the byte written
    earlier, not [7]. *)
Lemma round_trip_fails_when_not_empty :
  well_formed (example_queue 8 1) (example_mem 8 0 1) = true
  /\ array_of 1 (bytes_of [7]) 1 = true
  /\ availableToWrite (example_queue 8 1) (World (example_mem 8 0 1) [])
     = Ok (7, World (example_mem 8 0 1)
                [AtomicLoad 8192 memory_order_relaxed;
                 AtomicLoad 4096 memory_order_relaxed])
  /\ exists w1 w2,
       write 1 (example_queue 8 1) (bytes_of [7]) 1
         (World (example_mem 8 0 1) []) = Ok (true, w1)
       /\ read 1 (example_queue 8 1) (zeros 1) 1 w1
          = Ok ((true, bytes_of [0]), w2)
       /\ bytes_of [0] <> bytes_of [7].
Proof.
  split; [vm_compute; reflexivity|].
  split; [vm_compute; reflexivity|]. split; [vm_compute; reflexivity|].
  eexists _, _. split; [vm_compute; reflexivity|].
  split; [vm_compute; reflexivity|]. vm_compute. discriminate.
Qed.

(** * Occupancy and monotonicity *)

Lemma wrap64_add_sub_l p r n :
  0 <= p < 2 ^ 64 -> 0 <= r < 2 ^ 64 -> 0 <= n ->
  wrap64 (p - r) + n < 2 ^ 64 ->
  wrap64 (wrap64 (wrap64 (p + n)) - r) = wrap64 (p - r) + n.
Proof.
  intros Hp Hr Hn Hlt. pose proof (wrap64_range (p - r)) as Ho.
  unfold wrap64 in *. rewrite Z.mod_mod by lia. rewrite Zminus_mod_idemp_l.
  replace (p + n - r) with (p - r + n) by lia.
  rewrite <- Zplus_mod_idemp_l. apply Z.mod_small. lia.
Qed.

Lemma wrap64_sub_add_r p r n :
  0 <= p < 2 ^ 64 -> 0 <= r < 2 ^ 64 -> 0 <= n <= wrap64 (p - r) ->
  wrap64 (p - wrap64 (wrap64 (r + n))) = wrap64 (p - r) - n.
Proof.
  intros Hp Hr Hn. pose proof (wrap64_range (p - r)) as Ho.
  unfold wrap64 in *. rewrite Z.mod_mod by lia. rewrite Zminus_mod_idemp_r.
  replace (p - (r + n)) with (p - r - n) by lia.
  rewrite <- Zminus_mod_idemp_l. apply Z.mod_small. lia.
Qed.

Lemma wrap64_add_le p n : 0 <= p -> 0 <= n -> p + n < 2 ^ 64 -> p <= wrap64 (p + n).
Proof. intros Hp Hn Hlt. rewrite wrap64_small by lia. lia. Qed.

(** C4, as amended. From a bound endpoint with 0 <= W - R <= C (an unsigned
    64-bit subtraction), every [write] and every [read] of an array of
    records returns, leaves the endpoint bound and keeps 0 <= W - R <= C.
    [write] leaves R alone and either leaves W alone or moves it to
    W + count * sizeof(T) modulo 2^64; [read] does the same with R. So W
    and R do not decrease as long as the sum stays below 2^64, where the
    counter wraps round. *)
Theorem occupancy_preserved (sizeofT : Z) (q : MessageQueue) (w : world)
  (data : list byte) (count : Z) :
  well_formed q (mem w) = true ->
  occupancy q (mem w) <= getSize (mDesc q) ->
  array_of sizeofT data count = true ->
  let W := writePos q (mem w) in
  let R := readPos q (mem w) in
  let C := getSize (mDesc q) in
  let n := sizeofT * count in
  (exists b w',
     write sizeofT q data count w = Ok (b, w')
     /\ well_formed q (mem w') = true
     /\ 0 <= occupancy q (mem w') <= C
     /\ readPos q (mem w') = R
     /\ (writePos q (mem w') = W \/ writePos q (mem w') = wrap64 (W + n))
     /\ (W + n < 2 ^ 64 -> W <= writePos q (mem w')))
  /\ (exists b out w',
        read sizeofT q data count w = Ok ((b, out), w')
        /\ well_formed q (mem w') = true
        /\ 0 <= occupancy q (mem w') <= C
        /\ writePos q (mem w') = W
        /\ (readPos q (mem w') = R \/ readPos q (mem w') = wrap64 (R + n))
        /\ (R + n < 2 ^ 64 -> R <= readPos q (mem w'))).
Proof.
  intros Hwf Hocc Harr. cbv zeta.
  destruct (well_formed_elim _ _ Hwf) as (_ & HC & Hcm & Hring & _).
  destruct (array_of_elim _ _ _ Harr) as (HT & Hcount & Hlen & Hmax).
  pose proof (getSize_range (mDesc q)) as HCr.
  pose proof (occupancy_range q (mem w)) as Ho.
  pose proof (word_at_range (mem w) (mWritePtr q)) as HWr.
  pose proof (word_at_range (mem w) (mReadPtr q)) as HRr.
  fold (writePos q (mem w)) in HWr. fold (readPos q (mem w)) in HRr.
  unfold SIZE_MAX in Hmax.
  assert (Hn : 0 <= sizeofT * count) by nia.
  split.
  - destruct (Z_lt_le_dec (getSize (mDesc q) - occupancy q (mem w))
                (sizeofT * count)) as [Hlt|Hge].
    + exists false. eexists. rewrite write_refuse_eq; try done.
      2:{ rewrite !wrap64_small by lia. lia. }
      split; [reflexivity|]. cbn [mem]. repeat split; try done; try lia.
    + exists true. eexists. rewrite write_accept_eq by done.
      split; [reflexivity|]. cbn [mem].
      assert (Hl : Z.of_nat (length data) <= getSize (mDesc q)) by lia.
      split; [by apply after_write_well_formed|].
      split.
      { rewrite occupancy_after_write by done. unfold occupancy in *.
        rewrite wrap64_add_sub_l by lia. lia. }
      split; [by apply after_write_readPos|].
      rewrite after_write_writePos.
      rewrite (wrap64_small (wrap64 _)) by apply wrap64_range.
      split; [by right|]. intros Hlt. by apply wrap64_add_le; lia.
  - destruct (Z_lt_le_dec (occupancy q (mem w)) (sizeofT * count)) as [Hlt|Hge].
    + exists false, data. eexists. rewrite read_refuse_eq; try done.
      2:{ rewrite !wrap64_small by lia. lia. }
      split; [reflexivity|]. cbn [mem]. repeat split; try done; try lia.
    + exists true. do 2 eexists. rewrite read_accept_eq by done.
      split; [reflexivity|]. cbn [mem].
      split; [by apply after_read_well_formed|].
      split.
      { rewrite occupancy_after_read by done. unfold occupancy in *.
        rewrite wrap64_sub_add_r by lia. lia. }
      split; [by apply after_read_writePos|].
      rewrite after_read_readPos.
      rewrite (wrap64_small (wrap64 _)) by apply wrap64_range.
      split; [by right|]. intros Hlt. by apply wrap64_add_le; lia.
Qed.

Lemma occupancy_preserved_witness :
  well_formed (example_queue 8 1) (example_mem 8 4 6) = true
  /\ occupancy (example_queue 8 1) (example_mem 8 4 6) <= 8
  /\ array_of 1 (bytes_of [7; 8; 9; 10]) 4 = true
  /\ exists b w',
       write 1 (example_queue 8 1) (bytes_of [7; 8; 9; 10]) 4
         (World (example_mem 8 4 6) []) = Ok (b, w')
       /\ 0 <= occupancy (example_queue 8 1) (mem w') <= 8
       /\ 6 <= writePos (example_queue 8 1) (mem w').
Proof.
  assert (H1 : well_formed (example_queue 8 1)
                 (mem (World (example_mem 8 4 6) [])) = true)
    by (vm_compute; reflexivity).
  assert (H2 : occupancy (example_queue 8 1)
                 (mem (World (example_mem 8 4 6) []))
               <= getSize (mDesc (example_queue 8 1)))
    by (vm_compute; discriminate).
  assert (H3 : array_of 1 (bytes_of [7; 8; 9; 10]) 4 = true)
    by (vm_compute; reflexivity).
  destruct (occupancy_preserved 1 _ _ _ _ H1 H2 H3)
    as [(b & w' & Hw & _ & Ho & _ & _ & Hmono) _].
  split; [exact H1|]. split; [exact H2|]. split; [exact H3|].
  exists b, w'. split; [exact Hw|]. split; [exact Ho|].
  apply Hmono. vm_compute. reflexivity.
Defined.

(** C4 as stated fails where the counter wraps: with W = R = 2^64 - 1 the
    occupancy is 0, a write of one byte succeeds, and W is 0 afterwards. *)
Lemma write_position_wraps :
  well_formed (example_queue 8 1) (example_mem 8 (2 ^ 64 - 1) (2 ^ 64 - 1)) = true
  /\ occupancy (example_queue 8 1) (example_mem 8 (2 ^ 64 - 1) (2 ^ 64 - 1)) = 0
  /\ exists w',
       write 1 (example_queue 8 1) (bytes_of [1]) 1
         (World (example_mem 8 (2 ^ 64 - 1) (2 ^ 64 - 1)) []) = Ok (true, w')
       /\ writePos (example_queue 8 1) (mem w') = 0
       /\ writePos (example_queue 8 1) (mem w')
          < writePos (example_queue 8 1) (example_mem 8 (2 ^ 64 - 1) (2 ^ 64 - 1)).
Proof.
  split; [vm_compute; reflexivity|]. split; [vm_compute; reflexivity|].
  eexists. split; [vm_compute; reflexivity|].
  split; vm_compute; reflexivity.
Qed.

(** * Zero-count requests *)

Lemma ring_put_nil q m p : ring_put q m p [] = m.
Proof. unfold ring_put. by rewrite take_nil, drop_nil. Qed.

Lemma ring_get_zero q m p : 0 < getSize (mDesc q) -> ring_get q m p 0 = [].
Proof.
  intros HC. unfold ring_get.
  pose proof (Z.mod_pos_bound p _ HC).
  rewrite Z.min_l by lia. reflexivity.
Qed.

(** C6. On a bound endpoint, [write(data, 0)] and [read(dst, 0)] return true
    and leave the address space, hence W, R and every ring byte, as it was;
    [read] leaves the caller's array as it was too. *)
Theorem zero_count_noop (sizeofT : Z) (q : MessageQueue) (w : world)
  (data dst : list byte) :
  well_formed q (mem w) = true ->
  (exists w', write sizeofT q data 0 w = Ok (true, w') /\ mem w' = mem w)
  /\ (exists w', read sizeofT q dst 0 w = Ok ((true, dst), w')
                 /\ mem w' = mem w).
Proof.
  intros Hwf.
  destruct (well_formed_elim _ _ Hwf) as (_ & HC & Hcm & _).
  destruct (counters_mapped_elim _ _ Hcm) as [Hrp Hwp].
  pose proof (word_at_range (mem w) (mWritePtr q)) as HWr.
  pose proof (word_at_range (mem w) (mReadPtr q)) as HRr.
  split.
  - eexists. unfold write, bind. rewrite availableToWrite_eq by done.
    rewrite Z.mul_0_r. change (wrap64 0) with 0.
    destruct (Z.ltb_spec (wrap64 (getSize (mDesc q) - occupancy q (mem w))) 0)
      as [Hlt|_].
    { pose proof (wrap64_range (getSize (mDesc q) - occupancy q (mem w))). lia. }
    rewrite writeBytes_eq; cbn [mem trace]; try done; try lia.
    split; [reflexivity|]. cbn [mem]. change (Z.to_nat 0) with 0%nat.
    rewrite take_0, ring_put_nil, Z.add_0_r.
    unfold writePos. rewrite wrap64_small by done. by apply map_bytes_word_id.
  - eexists. unfold read, bind. rewrite availableToRead_eq by done.
    rewrite Z.mul_0_r. change (wrap64 0) with 0.
    destruct (Z.ltb_spec (occupancy q (mem w)) 0) as [Hlt|_].
    { pose proof (occupancy_range q (mem w)). lia. }
    rewrite readBytes_eq; cbn [mem trace]; try done; try lia.
    cbn [fst snd]. rewrite ring_get_zero by done. change (Z.to_nat 0) with 0%nat.
    rewrite drop_0. split; [reflexivity|]. cbn [mem]. rewrite Z.add_0_r.
    unfold readPos. rewrite wrap64_small by done. by apply map_bytes_word_id.
Qed.

Lemma zero_count_noop_witness :
  well_formed (example_queue 8 1) (example_mem 8 4 6) = true
  /\ (exists w',
        write 1 (example_queue 8 1) [] 0 (World (example_mem 8 4 6) [])
        = Ok (true, w') /\ mem w' = example_mem 8 4 6)
  /\ (exists w',
        read 1 (example_queue 8 1) [] 0 (World (example_mem 8 4 6) [])
        = Ok ((true, []), w') /\ mem w' = example_mem 8 4 6).
Proof.
  assert (H1 : well_formed (example_queue 8 1)
                 (mem (World (example_mem 8 4 6) [])) = true)
    by (vm_compute; reflexivity).
  split; [exact H1|].
  exact (zero_count_noop 1 _ _ [] [] H1).
Defined.

(** * Construction from a malformed descriptor *)

Lemma availableToRead_fault q w :
  mapped (mem w) (mWritePtr q) 8 = false -> availableToRead q w = Fault.
Proof.
  intros H. unfold availableToRead, bind. by rewrite atomic_load_fault.
Qed.

Lemma ctor_malformed sizeofT PAGE_SIZE kernel ring0 read0 write0 Desc w :
  malformed sizeofT Desc = true ->
  MessageQueue_ctor sizeofT PAGE_SIZE kernel (ring0, read0, write0) Desc w
  = Ok (Queue Desc ring0 read0 write0, w).
Proof.
  intros Hbad. unfold MessageQueue_ctor. unfold malformed in Hbad.
  by rewrite Hbad.
Qed.

(** C5, as amended. For a malformed descriptor (handle invalid, fewer than
    three grantors, or quantum different from [sizeof(T)]) the constructor
    returns at once: it calls no [mmap], leaves the address space alone and
    assigns none of the three pointer members. Where one of them is null,
    [isValid()] returns false. [availableToRead()], [write] and [read] do not
    look at validity: they load through the write-counter pointer, and where
    that pointer is null or otherwise unmapped they fault rather than return
    0 or false. *)
Theorem malformed_descriptor_endpoint (sizeofT PAGE_SIZE : Z)
  (kernel : gmap Z byte -> Z -> Z -> Z -> Z -> Z -> Z -> option (Z * list byte))
  (ring0 read0 write0 : Z) (Desc : MQDescriptor) (w : world) :
  malformed sizeofT Desc = true ->
  let q := Queue Desc ring0 read0 write0 in
  MessageQueue_ctor sizeofT PAGE_SIZE kernel (ring0, read0, write0) Desc w
  = Ok (q, w)
  /\ (ring0 = 0 \/ read0 = 0 \/ write0 = 0 -> isValid q = false)
  /\ (mapped (mem w) write0 8 = false ->
      availableToRead q w = Fault
      /\ forall data count,
           write sizeofT q data count w = Fault
           /\ read sizeofT q data count w = Fault).
Proof.
  intros Hbad q. split; [|split].
  - by apply ctor_malformed.
  - unfold isValid. cbn [q mRing mReadPtr mWritePtr].
    intros [-> | [-> | ->]]; cbn; by rewrite ?andb_false_r.
  - intros Hun. split; [by apply availableToRead_fault|].
    intros data count. unfold write, read, availableToWrite, bind.
    by rewrite availableToRead_fault.
Qed.

Lemma malformed_descriptor_endpoint_witness :
  malformed 4 (example_desc 16 8) = true
  /\ MessageQueue_ctor 4 4096 example_kernel (0, 0, 0) (example_desc 16 8)
       (World ∅ [])
     = Ok (Queue (example_desc 16 8) 0 0 0, World ∅ [])
  /\ isValid (Queue (example_desc 16 8) 0 0 0) = false
  /\ availableToRead (Queue (example_desc 16 8) 0 0 0) (World ∅ []) = Fault.
Proof.
  assert (H : malformed 4 (example_desc 16 8) = true) by (vm_compute; reflexivity).
  destruct (malformed_descriptor_endpoint 4 4096 example_kernel 0 0 0
              (example_desc 16 8) (World ∅ []) H) as (Hc & Hv & Hf).
  split; [exact H|]. split; [exact Hc|].
  split; [apply Hv; left; reflexivity|].
  apply Hf. vm_compute. reflexivity.
Defined.

(** C5 as stated fails in scenario S4 (a descriptor with quantum 8 for
    records of width 4): the endpoint is invalid, but [availableToRead()]
    does not return 0 and [write] does not return false. *)
Lemma invalid_endpoint_is_not_guarded :
  malformed 4 (example_desc 16 8) = true
  /\ exists q w',
       MessageQueue_ctor 4 4096 example_kernel (0, 0, 0) (example_desc 16 8)
         (World ∅ []) = Ok (q, w')
       /\ trace w' = []
       /\ isValid q = false
       /\ (forall w'', availableToRead q w' <> Ok (0, w''))
       /\ (forall w'', write 4 q (zeros 4) 1 w' <> Ok (false, w'')).
Proof.
  split; [vm_compute; reflexivity|].
  eexists _, _. split; [vm_compute; reflexivity|].
  split; [reflexivity|]. split; [reflexivity|].
  split; intros w''; vm_compute; discriminate.
Qed.

(** * The region mapper *)

Lemma to_int_small x : 0 <= x < 2 ^ 31 -> to_int (wrap32 x) = x.
Proof.
  intros Hx. unfold to_int, wrap32. rewrite Z.mod_mod by lia.
  rewrite Z.mod_small by lia.
  destruct (Z.ltb_spec x (2 ^ 31)); lia.
Qed.

Lemma to_int_wrap32 x : wrap32 x < 2 ^ 31 -> to_int (wrap32 x) = wrap32 x.
Proof.
  intros Hx. unfold to_int. replace (wrap32 (wrap32 x)) with (wrap32 x).
  - destruct (Z.ltb_spec (wrap32 x) (2 ^ 31)); lia.
  - unfold wrap32. by rewrite Z.mod_mod by lia.
Qed.

Lemma wrap32_small x : 0 <= x < 2 ^ 32 -> wrap32 x = x.
Proof. unfold wrap32. apply Z.mod_small. Qed.

Lemma wrap32_range x : 0 <= wrap32 x < 2 ^ 32.
Proof. unfold wrap32. apply Z.mod_pos_bound. lia. Qed.

Lemma page_floor O P : 0 < P -> 0 <= O -> 0 <= O / P * P <= O /\ O - O / P * P < P.
Proof.
  intros HP HO. pose proof (Z.div_mod O P ltac:(lia)) as H.
  pose proof (Z.mod_pos_bound O P HP). pose proof (Z.div_pos O P HO HP). nia.
Qed.

Lemma index_eq {A} (v : list A) (i : Z) (x : A) (w : world) :
  0 <= i -> v !! Z.to_nat i = Some x -> index v i w = Ok (x, w).
Proof.
  intros Hi Hx. unfold index.
  destruct (Z.ltb_spec i 0); [lia|]. by rewrite Hx.
Qed.

(** C8, as amended. For a grantor with offset O and extent E (as 32-bit
    values) whose page-aligned offset O' = (O / PAGE_SIZE) * PAGE_SIZE and
    length L = (O - O') + E are both below 2^31, so that the [int] variables
    of the code hold them: [mapGrantorDescr] requests one shared read-write
    mapping of length L at file offset O' on the grantor's file descriptor,
    and returns base + (O - O') on success and null on failure;
    [unmapGrantorDescr] subtracts (O - O') from the address it is given and,
    that base not being null, releases L bytes from it. *)
Theorem map_unmap_grantor (PAGE_SIZE : Z)
  (kernel : gmap Z byte -> Z -> Z -> Z -> Z -> Z -> Z -> option (Z * list byte))
  (q : MessageQueue) (grantor_idx : Z) (g : GrantorDescriptor)
  (fds : list Z) (fd : Z) (w : world) :
  0 < PAGE_SIZE ->
  getNativeHandle (mDesc q) = Some fds ->
  0 <= grantor_idx ->
  getGrantors (mDesc q) !! Z.to_nat grantor_idx = Some g ->
  wrap32 (fdIndex g) < 2 ^ 31 ->
  fds !! Z.to_nat (wrap32 (fdIndex g)) = Some fd ->
  let O := wrap32 (offset g) in
  let E := wrap32 (extent g) in
  let O' := O / PAGE_SIZE * PAGE_SIZE in
  let L := (O - O') + E in
  O' < 2 ^ 31 ->
  L < 2 ^ 31 ->
  mapGrantorDescr PAGE_SIZE kernel q grantor_idx w
  = match kernel (mem w) 0 L (Z.lor PROT_READ PROT_WRITE) MAP_SHARED fd O' with
    | Some (base, content) =>
        Ok (if base =? MAP_FAILED then 0 else base + (O - O'),
            World (map_bytes (mem w) base content)
              (trace w ++ [Mmap 0 L (Z.lor PROT_READ PROT_WRITE) MAP_SHARED
                             fd O' base]))
    | None =>
        Ok (0,
            World (mem w)
              (trace w ++ [Mmap 0 L (Z.lor PROT_READ PROT_WRITE) MAP_SHARED
                             fd O' MAP_FAILED]))
    end
  /\ forall address,
       address - (O - O') <> 0 ->
       unmapGrantorDescr PAGE_SIZE q address grantor_idx w
       = Ok (tt,
             World (unmap_range (mem w) (address - (O - O')) L)
               (trace w ++ [Munmap (address - (O - O')) L])).
Proof.
  intros HP Hh Hidx Hg Hfi Hfd O E O' L HO' HL.
  pose proof (wrap32_range (offset g)) as HOr. fold O in HOr.
  pose proof (wrap32_range (extent g)) as HEr. fold E in HEr.
  pose proof (wrap32_range (fdIndex g)) as HFr.
  destruct (page_floor O PAGE_SIZE HP ltac:(lia)) as [Hfl Hrem]. fold O' in Hfl, Hrem.
  assert (EmapOffset : to_int (wrap32 O') = O') by (apply to_int_small; lia).
  assert (Edelta : wrap32 (O - O') = O - O') by (apply wrap32_small; lia).
  assert (EmapLength : to_int (wrap32 (O - O' + E)) = L)
    by (apply to_int_small; unfold L in *; lia).
  assert (Efd : to_int (wrap32 (fdIndex g)) = wrap32 (fdIndex g))
    by (by apply to_int_wrap32).
  assert (EL : wrap64 L = L) by (apply wrap64_small; unfold L in *; lia).
  split.
  - unfold mapGrantorDescr, bind, handle. rewrite Hh.
    rewrite (index_eq _ _ g) by done. fold O E O'.
    rewrite EmapOffset, Edelta, EmapLength, Efd, EL.
    rewrite (index_eq _ _ fd) by (done || lia).
    unfold mmap.
    destruct (kernel (mem w) 0 L (Z.lor PROT_READ PROT_WRITE) MAP_SHARED fd O')
      as [[base content]|]; [done|].
    by rewrite Z.eqb_refl.
  - intros address Hbase.
    unfold unmapGrantorDescr, bind, handle. rewrite Hh.
    rewrite (index_eq _ _ g) by done. fold O E O'.
    rewrite EmapOffset, Edelta, EmapLength, EL.
    destruct (Z.eqb_spec (address - (O - O')) 0); [done|]. done.
Qed.

Lemma map_unmap_grantor_witness :
  0 < 4096
  /\ mapGrantorDescr 4096 failing_kernel
       (Queue (Descriptor [Grantor 0 5000 100] (Some [3]) 1 100) 0 0 0) 0
       (World ∅ [])
     = Ok (0, World ∅ [Mmap 0 1004 3 1 3 4096 MAP_FAILED])
  /\ unmapGrantorDescr 4096
       (Queue (Descriptor [Grantor 0 5000 100] (Some [3]) 1 100) 0 0 0)
       (8192 + 904) 0 (World ∅ [])
     = Ok (tt, World (unmap_range ∅ 8192 1004) [Munmap 8192 1004]).
Proof.
  assert (HP : 0 < 4096) by lia.
  destruct (map_unmap_grantor 4096 failing_kernel
              (Queue (Descriptor [Grantor 0 5000 100] (Some [3]) 1 100) 0 0 0)
              0 (Grantor 0 5000 100) [3] 3 (World ∅ []) HP eq_refl
              ltac:(lia) eq_refl ltac:(vm_compute; reflexivity) eq_refl
              ltac:(vm_compute; reflexivity) ltac:(vm_compute; reflexivity))
    as [Hmap Hunmap].
  split; [exact HP|]. split; [exact Hmap|].
  exact (Hunmap (8192 + 904) ltac:(vm_compute; discriminate)).
Defined.

(** C8 as stated fails for an extent the [int] length cannot hold: for
    O = 0 and E = 2^31 the length the code passes to [mmap] is
    2^64 - 2^31, not (O - O') + E = 2^31. *)
Lemma map_length_truncated :
  mapGrantorDescr 4096 failing_kernel
    (Queue (Descriptor [Grantor 0 0 (2 ^ 31)] (Some [3]) 1 (2 ^ 31)) 0 0 0) 0
    (World ∅ [])
  = Ok (0, World ∅ [Mmap 0 (2 ^ 64 - 2 ^ 31) 3 1 3 0 MAP_FAILED])
  /\ 2 ^ 64 - 2 ^ 31 <> (0 - 0 / 4096 * 4096) + 2 ^ 31.
Proof. split; [vm_compute; reflexivity | vm_compute; discriminate]. Qed.

(** * Construction from a well-formed descriptor *)

Lemma top_address_above (m : gmap Z byte) k :
  is_Some (m !! k) -> k < top_address m.
Proof.
  unfold top_address. revert k.
  apply (map_fold_weak_ind
           (fun r (m : gmap Z byte) => forall k, is_Some (m !! k) -> k < r)).
  - intros k [b Hb]. by rewrite lookup_empty in Hb.
  - intros i x m' r Hi IH k Hk. rewrite lookup_insert in Hk.
    case_decide as E; [lia|]. specialize (IH k Hk). lia.
Qed.

Lemma top_address_nonneg (m : gmap Z byte) : 0 <= top_address m.
Proof.
  unfold top_address.
  apply (map_fold_weak_ind (fun r (_ : gmap Z byte) => 0 <= r)); [done|].
  intros. lia.
Qed.

Lemma example_kernel_fresh : kernel_fresh example_kernel.
Proof.
  intros m addr len prot flags fd off base content [= <- <-] i Hi.
  destruct (m !! _) as [b|] eqn:E; [|done]. exfalso.
  pose proof (top_address_above m _ (mk_is_Some _ _ E)) as Hlt.
  pose proof (top_address_nonneg m) as H0.
  pose proof (Z.div_mod (top_address m) 4096 ltac:(lia)).
  pose proof (Z.mod_pos_bound (top_address m) 4096 ltac:(lia)). lia.
Qed.

Lemma store_bytes_Some m a l m' :
  store_bytes m a l = Some m' ->
  m' = map_bytes m a l
  /\ forall i, (i < length l)%nat -> is_Some (m !! (a + Z.of_nat i)).
Proof.
  intros H.
  assert (Hm : forall i, (i < length l)%nat -> is_Some (m !! (a + Z.of_nat i))).
  { revert m a H. induction l as [|b l IH]; intros m a H i Hi;
      simpl in *; [lia|].
    destruct (m !! a) as [b0|] eqn:Ea; [|done].
    destruct i as [|i]; [rewrite Z.add_0_r; eauto|].
    specialize (IH _ _ H i ltac:(lia)).
    replace (a + Z.of_nat (S i)) with (a + 1 + Z.of_nat i) by lia.
    rewrite lookup_insert in IH. case_decide; [|done].
    replace (a + 1 + Z.of_nat i) with a by lia. eauto. }
  split; [|done]. rewrite store_bytes_map_bytes in H by done. congruence.
Qed.

Lemma word_at_zero m a :
  (forall i, 0 <= i < 8 -> m !! (a + i) = Some x00) -> word_at m a = 0.
Proof.
  intros H. unfold word_at.
  destruct (load_bytes_is_Some m a 8) as [l E].
  { intros i Hi. rewrite H by lia. eauto. }
  rewrite E. pose proof (load_bytes_length _ _ _ _ E) as L.
  assert (El : l = replicate 8 x00).
  { apply list_eq. intros i. destruct (decide (i < 8)%nat) as [Hi|Hi].
    - rewrite <- (load_bytes_lookup _ _ _ _ i E Hi), H by lia.
      symmetry. by apply lookup_replicate_2.
    - rewrite !lookup_ge_None_2; [done| |lia]. rewrite length_replicate. lia. }
  by rewrite El.
Qed.

Lemma zero_word_lookup i : (i < 8)%nat -> le_bytes 8 0 !! i = Some x00.
Proof.
  intros Hi. change (le_bytes 8 0) with (replicate 8 x00).
  by apply lookup_replicate_2.
Qed.

(** What a call of [mapGrantorDescr] that returns has done: one [mmap], which
    either failed or added the bytes of a mapping the kernel chose. *)
Lemma mapGrantorDescr_outcome PAGE_SIZE kernel q i w p w1 :
  mapGrantorDescr PAGE_SIZE kernel q i w = Ok (p, w1) ->
  exists e,
    trace w1 = trace w ++ [e]
    /\ (mem w1 = mem w
        \/ exists addr len prot flags fd off base content,
             kernel (mem w) addr len prot flags fd off = Some (base, content)
             /\ mem w1 = map_bytes (mem w) base content).
Proof.
  unfold mapGrantorDescr, bind, handle, index, mmap, ret.
  destruct (getNativeHandle (mDesc q)) as [fds|]; [|done].
  destruct (i <? 0); [done|].
  destruct (getGrantors (mDesc q) !! Z.to_nat i) as [g|]; [|done].
  destruct (_ <? 0); [done|].
  destruct (fds !! _) as [fd|]; [|done].
  destruct (kernel _ _ _ _ _ _ _) as [[base content]|] eqn:Ek.
  - intros [= <- <-]. eexists. split; [reflexivity|]. right. cbn [mem].
    eauto 10.
  - intros [= <- <-]. eexists. split; [reflexivity|]. by left.
Qed.

Lemma mapGrantorDescr_keeps PAGE_SIZE kernel q i w p w1 x b :
  kernel_fresh kernel ->
  mapGrantorDescr PAGE_SIZE kernel q i w = Ok (p, w1) ->
  mem w !! x = Some b -> mem w1 !! x = Some b.
Proof.
  intros Hfresh Hmap Hx.
  destruct (mapGrantorDescr_outcome _ _ _ _ _ _ _ Hmap)
    as (e & _ & [-> | (addr & len & prot & flags & fd & off & base & content
                      & Hk & ->)]); [done|].
  rewrite map_bytes_lookup. case_decide as Hin; [|done].
  specialize (Hfresh _ _ _ _ _ _ _ _ _ Hk (x - base) ltac:(lia)).
  replace (base + (x - base)) with x in Hfresh by lia. congruence.
Qed.

Lemma mapGrantorDescr_desc PAGE_SIZE kernel d d' r1 p1 w1 r2 p2 w2 i :
  getNativeHandle d = getNativeHandle d' ->
  getGrantors d = getGrantors d' ->
  mapGrantorDescr PAGE_SIZE kernel (Queue d r1 p1 w1) i
  = mapGrantorDescr PAGE_SIZE kernel (Queue d' r2 p2 w2) i.
Proof.
  intros Hh Hg. unfold mapGrantorDescr. cbn [mDesc]. by rewrite Hh, Hg.
Qed.

(** C9: what the constructor does for a descriptor that passes its checks,
    when it returns. It maps the read counter and the write counter, stores
    0 to each, maps the ring, and the endpoint is valid; with a kernel that
    maps at fresh addresses both counters read 0 afterwards. The two
    zeroing stores carry [std::memory_order_acquire], not
    [std::memory_order_release]. *)
Theorem constructor_zeroes_counters (sizeofT PAGE_SIZE : Z)
  (kernel : gmap Z byte -> Z -> Z -> Z -> Z -> Z -> Z -> option (Z * list byte))
  (storage : Z * Z * Z) (Desc : MQDescriptor) (w w' : world)
  (q : MessageQueue) :
  malformed sizeofT Desc = false ->
  kernel_fresh kernel ->
  MessageQueue_ctor sizeofT PAGE_SIZE kernel storage Desc w = Ok (q, w') ->
  isValid q = true
  /\ mDesc q = Desc
  /\ readPos q (mem w') = 0
  /\ writePos q (mem w') = 0
  /\ exists e1 e2 e3,
       trace w' = trace w ++
         [e1; e2;
          AtomicStore (mReadPtr q) 0 memory_order_acquire;
          AtomicStore (mWritePtr q) 0 memory_order_acquire;
          e3].
Proof.
  intros Hgood Hfresh. unfold MessageQueue_ctor.
  destruct storage as [[ring0 read0] write0].
  unfold malformed in Hgood. rewrite Hgood. unfold bind, CHECK, ret.
  destruct (mapGrantorDescr _ _ _ READPTRPOS w) as [[rp w1]| |] eqn:E1;
    [|done..].
  cbn [mReadPtr mWritePtr mRing].
  destruct (Z.eqb_spec rp 0) as [|Hrp]; [done|]. cbn [negb].
  destruct (mapGrantorDescr _ _ _ WRITEPTRPOS w1) as [[wp w2]| |] eqn:E2;
    [|done..].
  destruct (Z.eqb_spec wp 0) as [|Hwp]; [done|]. cbn [negb].
  unfold atomic_store at 1.
  destruct (store_bytes (mem w2) rp (le_bytes 8 0)) as [m3|] eqn:S1; [|done].
  unfold atomic_store at 1. cbn [mem trace].
  destruct (store_bytes m3 wp (le_bytes 8 0)) as [m4|] eqn:S2; [|done].
  destruct (mapGrantorDescr _ _ _ DATAPTRPOS _) as [[ring w5]| |] eqn:E3;
    [|done..].
  destruct (Z.eqb_spec ring 0) as [|Hring]; [done|]. cbn [negb].
  intros [= <- <-].
  destruct (store_bytes_Some _ _ _ _ S1) as [-> _].
  destruct (store_bytes_Some _ _ _ _ S2) as [-> _].
  destruct (mapGrantorDescr_outcome _ _ _ _ _ _ _ E1) as (e1 & T1 & _).
  destruct (mapGrantorDescr_outcome _ _ _ _ _ _ _ E2) as (e2 & T2 & _).
  destruct (mapGrantorDescr_outcome _ _ _ _ _ _ _ E3) as (e3 & T3 & _).
  cbn [mem trace] in T3.
  assert (Hz : forall a, (a = rp \/ a = wp) -> forall i, 0 <= i < 8 ->
            mem w5 !! (a + i) = Some x00).
  { intros a Ha i Hi.
    apply (mapGrantorDescr_keeps _ _ _ _ _ _ _ _ _ Hfresh E3). cbn [mem].
    rewrite !map_bytes_lookup, length_le_bytes.
    change (Z.of_nat 8) with 8.
    case_decide as H2.
    - apply zero_word_lookup. lia.
    - destruct Ha as [-> | ->]; [|lia].
      rewrite decide_True by lia.
      replace (rp + i - rp) with i by lia. apply zero_word_lookup. lia. }
  split.
  { unfold isValid. cbn [mRing mReadPtr mWritePtr].
    destruct (Z.eqb_spec ring 0), (Z.eqb_spec rp 0), (Z.eqb_spec wp 0);
      done. }
  split; [done|].
  split; [apply word_at_zero, Hz; by left|].
  split; [apply word_at_zero, Hz; by right|].
  exists e1, e2, e3. cbn [mReadPtr mWritePtr].
  rewrite T3, T2, T1. by rewrite <- !app_assoc.
Qed.

Lemma constructor_zeroes_counters_witness :
  malformed 1 (example_desc 8 1) = false
  /\ kernel_fresh example_kernel
  /\ exists q w',
       MessageQueue_ctor 1 4096 example_kernel (0, 0, 0) (example_desc 8 1)
         (World ∅ []) = Ok (q, w')
       /\ readPos q (mem w') = 0
       /\ writePos q (mem w') = 0
       /\ exists e1 e2 e3,
            trace w' = trace (World ∅ []) ++
              [e1; e2;
               AtomicStore (mReadPtr q) 0 memory_order_acquire;
               AtomicStore (mWritePtr q) 0 memory_order_acquire;
               e3].
Proof.
  assert (H1 : malformed 1 (example_desc 8 1) = false) by (vm_compute; reflexivity).
  split; [exact H1|]. split; [exact example_kernel_fresh|].
  eexists _, _.
  assert (Hc : MessageQueue_ctor 1 4096 example_kernel (0, 0, 0)
                 (example_desc 8 1) (World ∅ []) = Ok (_, _))
    by (vm_compute; reflexivity).
  split; [exact Hc|].
  destruct (constructor_zeroes_counters 1 4096 example_kernel _ _ _ _ _
              H1 example_kernel_fresh Hc) as (_ & _ & HR & HW & Ht).
  split; [exact HR|]. split; [exact HW|]. exact Ht.
Defined.

(** * Degenerate geometry *)

Lemma ctor_ignores_size sizeofT PAGE_SIZE kernel storage d s w :
  MessageQueue_ctor sizeofT PAGE_SIZE kernel storage (with_size d s) w
  = match MessageQueue_ctor sizeofT PAGE_SIZE kernel storage d w with
    | Ok (q, w') =>
        Ok (Queue (with_size d s) (mRing q) (mReadPtr q) (mWritePtr q), w')
    | Abort => Abort
    | Fault => Fault
    end.
Proof.
  unfold MessageQueue_ctor. destruct storage as [[ring0 read0] write0].
  change (isHandleValid (with_size d s)) with (isHandleValid d).
  change (countGrantors (with_size d s)) with (countGrantors d).
  change (getQuantum (with_size d s)) with (getQuantum d).
  destruct (negb (isHandleValid d) || (countGrantors d <? kMinGrantorCount)
            || negb (getQuantum d =? sizeofT)); [done|].
  unfold bind, CHECK, ret. cbn [mReadPtr mWritePtr mRing].
  rewrite (mapGrantorDescr_desc _ _ (with_size d s) d _ _ _ ring0 read0 write0)
    by done.
  destruct (mapGrantorDescr _ _ _ READPTRPOS w) as [[rp w1]| |]; [|done..].
  destruct (negb (rp =? 0)); [|done].
  rewrite (mapGrantorDescr_desc _ _ (with_size d s) d _ _ _ ring0 rp write0)
    by done.
  destruct (mapGrantorDescr _ _ _ WRITEPTRPOS w1) as [[wp w2]| |]; [|done..].
  destruct (negb (wp =? 0)); [|done].
  destruct (atomic_store rp 0 memory_order_acquire w2) as [[[] w3]| |];
    [|done..].
  destruct (atomic_store wp 0 memory_order_acquire w3) as [[[] w4]| |];
    [|done..].
  rewrite (mapGrantorDescr_desc _ _ (with_size d s) d _ _ _ ring0 rp wp)
    by done.
  destruct (mapGrantorDescr _ _ _ DATAPTRPOS w4) as [[ring w5]| |]; [|done..].
  by destruct (negb (ring =? 0)).
Qed.

(** C10. Nothing guards a degenerate geometry. [getQuantumCount()] divides
    the capacity by the descriptor's quantum whatever the endpoint's state:
    a quantum of 0 differs from every [sizeof(T)], so construction leaves
    such an endpoint invalid, and the division by zero is still reached. The
    constructor never reads the capacity: replacing it, by 0 for one, changes
    nothing of what construction does, and on an endpoint whose capacity is 0
    [beginWrite] and [beginRead] reduce the position modulo 0. *)
Theorem degenerate_geometry_unguarded (sizeofT PAGE_SIZE : Z)
  (kernel : gmap Z byte -> Z -> Z -> Z -> Z -> Z -> Z -> option (Z * list byte))
  (storage : Z * Z * Z) (d : MQDescriptor) (s : Z) (w : world) :
  0 < sizeofT ->
  (forall q w0,
     getQuantumCount q w0
     = if getQuantum (mDesc q) =? 0 then Fault
       else Ok (getSize (mDesc q) / getQuantum (mDesc q), w0))
  /\ (getQuantum d = 0 ->
      malformed sizeofT d = true
      /\ exists q,
           MessageQueue_ctor sizeofT PAGE_SIZE kernel storage d w = Ok (q, w)
           /\ getQuantumCount q w = Fault)
  /\ MessageQueue_ctor sizeofT PAGE_SIZE kernel storage (with_size d s) w
     = match MessageQueue_ctor sizeofT PAGE_SIZE kernel storage d w with
       | Ok (q, w') =>
           Ok (Queue (with_size d s) (mRing q) (mReadPtr q) (mWritePtr q), w')
       | Abort => Abort
       | Fault => Fault
       end
  /\ (forall q n w0,
        getSize (mDesc q) = 0 ->
        beginWrite q n w0 = Fault /\ beginRead q n w0 = Fault).
Proof.
  intros HT. split; [|split; [|split]].
  - intros q w0. unfold getQuantumCount, udiv. done.
  - intros HQ.
    assert (Hbad : malformed sizeofT d = true).
    { unfold malformed. rewrite HQ.
      destruct (Z.eqb_spec 0 sizeofT); [lia|]. by rewrite orb_true_r. }
    split; [done|]. destruct storage as [[ring0 read0] write0].
    eexists. split; [by apply ctor_malformed|].
    unfold getQuantumCount, udiv. cbn [mDesc]. by rewrite HQ.
  - apply ctor_ignores_size.
  - intros q n w0 HC.
    unfold beginWrite, beginRead, bind, umod, atomic_load. rewrite HC.
    split.
    + destruct (load_bytes (mem w0) (mReadPtr q) 8); [cbn [mem]|done].
      by destruct (load_bytes (mem w0) (mWritePtr q) 8).
    + destruct (load_bytes (mem w0) (mWritePtr q) 8); [cbn [mem]|done].
      by destruct (load_bytes (mem w0) (mReadPtr q) 8).
Qed.

Lemma degenerate_geometry_unguarded_witness :
  0 < 1
  /\ getQuantumCount (Queue (example_desc 8 0) 0 0 0) (World ∅ []) = Fault
  /\ exists q w',
       MessageQueue_ctor 1 4096 example_kernel (0, 0, 0)
         (with_size (example_desc 8 1) 0) (World ∅ []) = Ok (q, w')
       /\ isValid q = true
       /\ getSize (mDesc q) = 0
       /\ counters_mapped q (mem w') = true
       /\ beginWrite q 1 w' = Fault
       /\ beginRead q 1 w' = Fault.
Proof.
  assert (HT : 0 < 1) by lia.
  destruct (degenerate_geometry_unguarded 1 4096 example_kernel (0, 0, 0)
              (example_desc 8 1) 0 (World ∅ []) HT) as (Hq & _ & Hc & Hb).
  split; [exact HT|]. split; [exact (Hq _ _)|].
  eexists _, _. split.
  - rewrite Hc. vm_compute. reflexivity.
  - split; [reflexivity|]. split; [reflexivity|].
    split; [vm_compute; reflexivity|]. apply Hb. reflexivity.
Defined.


(** * First in, first out *)

Lemma ring_get_unique q m p n (l : list byte) :
  0 < getSize (mDesc q) ->
  mapped m (mRing q) (getSize (mDesc q)) = true ->
  0 <= n <= getSize (mDesc q) ->
  Z.of_nat (length l) = n ->
  (forall i, 0 <= i < n ->
     l !! Z.to_nat i = m !! (mRing q + (p + i) mod getSize (mDesc q))) ->
  l = ring_get q m p n.
Proof.
  intros HC Hm Hn Hlen Hl. apply list_eq. intros i.
  pose proof (ring_get_length q HC m p n Hm Hn) as L.
  destruct (decide (i < length l)%nat) as [Hi|Hi].
  - assert (Hi' : 0 <= Z.of_nat i < n) by lia.
    pose proof (ring_get_lookup q HC m p n _ Hm Hn Hi') as G.
    specialize (Hl _ Hi'). rewrite Nat2Z.id in G, Hl. by rewrite G, Hl.
  - rewrite !lookup_ge_None_2 by lia. done.
Qed.

Lemma mod_shift_neq a d C :
  0 < C -> 0 < d < C -> (a + d) mod C <> a mod C.
Proof.
  intros HC Hd E.
  assert (H : (a + d - a) mod C = 0).
  { rewrite Zminus_mod, E, Z.sub_diag. by apply Z.mod_0_l; lia. }
  replace (a + d - a) with d in H by lia.
  rewrite Z.mod_small in H by lia. lia.
Qed.

Lemma well_formed_ring_mapped q m :
  well_formed q m = true -> mapped m (mRing q) (getSize (mDesc q)) = true.
Proof. intros H. by destruct (well_formed_elim _ _ H) as (_ & _ & _ & ? & _). Qed.

Lemma write_appends (sizeofT : Z) (q : MessageQueue) (w : world)
  (data : list byte) (count : Z) :
  well_formed q (mem w) = true ->
  occupancy q (mem w) <= getSize (mDesc q) ->
  array_of sizeofT data count = true ->
  sizeofT * count <= getSize (mDesc q) - occupancy q (mem w) ->
  readPos q (mem w) <= writePos q (mem w) ->
  writePos q (mem w) + sizeofT * count < 2 ^ 64 ->
  exists w',
    write sizeofT q data count w = Ok (true, w')
    /\ pending q (mem w') = pending q (mem w) ++ data
    /\ well_formed q (mem w') = true
    /\ readPos q (mem w') = readPos q (mem w)
    /\ writePos q (mem w') = writePos q (mem w) + sizeofT * count.
Proof.
  intros Hwf Hocc Harr Hfit Hle Hnowrap.
  destruct (well_formed_elim _ _ Hwf) as (_ & HC & Hcm & Hring & _ & _ & Hwr).
  destruct (array_of_elim _ _ _ Harr) as (HT & Hcount & Hlen & Hmax).
  pose proof (word_at_range (mem w) (mWritePtr q)) as HWr.
  pose proof (word_at_range (mem w) (mReadPtr q)) as HRr.
  fold (writePos q (mem w)) in HWr. fold (readPos q (mem w)) in HRr.
  assert (Hn : 0 <= sizeofT * count) by nia.
  assert (Eocc : occupancy q (mem w) = writePos q (mem w) - readPos q (mem w)).
  { unfold occupancy. apply wrap64_small. lia. }
  assert (Hl : Z.of_nat (length data) <= getSize (mDesc q)) by lia.
  eexists. rewrite write_accept_eq by done. split; [reflexivity|]. cbn [mem].
  set (m' := map_bytes _ _ _).
  assert (Hwf' : well_formed q m' = true) by by apply after_write_well_formed.
  assert (HR' : readPos q m' = readPos q (mem w)) by by apply after_write_readPos.
  assert (HW' : writePos q m' = writePos q (mem w) + sizeofT * count).
  { unfold m'. rewrite after_write_writePos.
    rewrite wrap64_small by apply wrap64_range. apply wrap64_small. lia. }
  assert (Eocc' : occupancy q m' = occupancy q (mem w) + sizeofT * count).
  { unfold occupancy at 1. rewrite HR', HW'. rewrite wrap64_small; lia. }
  split; [|repeat split; assumption].
  unfold pending at 1. rewrite HR', Eocc'. symmetry.
  apply ring_get_unique; try done.
  - by apply well_formed_ring_mapped.
  - pose proof (occupancy_range q (mem w)). lia.
  - rewrite length_app, Nat2Z.inj_add. unfold pending.
    rewrite ring_get_length; try done; [lia|].
    pose proof (occupancy_range q (mem w)). lia.
  - intros i Hi.
    assert (Hp : Z.of_nat (length (pending q (mem w))) = occupancy q (mem w)).
    { unfold pending. apply ring_get_length; try done.
      pose proof (occupancy_range q (mem w)). lia. }
    destruct (Z_lt_le_dec i (occupancy q (mem w))) as [Hold|Hnew].
    + rewrite lookup_app_l by lia. unfold pending.
      rewrite ring_get_lookup by (done || lia).
      symmetry. apply after_write_frame; try done.
      * apply apart_elim in Hwr.
        pose proof (Z.mod_pos_bound (readPos q (mem w) + i) _ HC). lia.
      * intros j Hj E. apply Z.add_reg_l in E.
        replace (writePos q (mem w) + j)
          with (readPos q (mem w) + i + (occupancy q (mem w) + j - i)) in E by lia.
        symmetry in E. revert E. apply mod_shift_neq; lia.
    + rewrite lookup_app_r by lia.
      replace (Z.to_nat i - length (pending q (mem w)))%nat
        with (Z.to_nat (i - occupancy q (mem w))) by lia.
      assert (Hj : 0 <= i - occupancy q (mem w) < Z.of_nat (length data)) by lia.
      rewrite <- (after_write_ring q (mem w) data
                    (wrap64 (writePos q (mem w) + sizeofT * count)) Hwf Hl _ Hj).
      unfold m'. do 3 f_equal. lia.
Qed.

(** X1: [write(data, count)] appends to the stream. On a bound endpoint whose
    counters have not wrapped (R <= W and W + n < 2^64, n = count * sizeof(T)),
    a write that fits the free space returns true, and the unread bytes
    afterwards are the unread bytes before, in their order, followed by the
    bytes of [data]: nothing unread is overwritten, also when the copy wraps
    around the end of the ring. *)
Theorem fifo_write (sizeofT : Z) (q : MessageQueue) (w : world)
  (data : list byte) (count : Z) :
  well_formed q (mem w) = true ->
  occupancy q (mem w) <= getSize (mDesc q) ->
  array_of sizeofT data count = true ->
  sizeofT * count <= getSize (mDesc q) - occupancy q (mem w) ->
  readPos q (mem w) <= writePos q (mem w) ->
  writePos q (mem w) + sizeofT * count < 2 ^ 64 ->
  exists w',
    write sizeofT q data count w = Ok (true, w')
    /\ pending q (mem w') = pending q (mem w) ++ data.
Proof.
  intros Hwf Hocc Harr Hfit Hle Hnowrap.
  destruct (write_appends sizeofT q w data count Hwf Hocc Harr Hfit Hle Hnowrap)
    as (w' & Hw & Hp & _).
  by exists w'.
Qed.

Lemma fifo_write_witness :
  well_formed (example_queue 8 1) (example_mem 8 4 6) = true
  /\ occupancy (example_queue 8 1) (example_mem 8 4 6) <= 8
  /\ array_of 1 (bytes_of [7; 8; 9; 10]) 4 = true
  /\ 1 * 4 <= 8 - occupancy (example_queue 8 1) (example_mem 8 4 6)
  /\ readPos (example_queue 8 1) (example_mem 8 4 6)
     <= writePos (example_queue 8 1) (example_mem 8 4 6)
  /\ writePos (example_queue 8 1) (example_mem 8 4 6) + 1 * 4 < 2 ^ 64
  /\ exists w',
       write 1 (example_queue 8 1) (bytes_of [7; 8; 9; 10]) 4
         (World (example_mem 8 4 6) []) = Ok (true, w')
       /\ pending (example_queue 8 1) (mem w')
          = pending (example_queue 8 1) (example_mem 8 4 6)
            ++ bytes_of [7; 8; 9; 10].
Proof.
  assert (H1 : well_formed (example_queue 8 1)
                 (mem (World (example_mem 8 4 6) [])) = true)
    by (vm_compute; reflexivity).
  assert (H2 : occupancy (example_queue 8 1) (mem (World (example_mem 8 4 6) []))
               <= getSize (mDesc (example_queue 8 1)))
    by (vm_compute; discriminate).
  assert (H3 : array_of 1 (bytes_of [7; 8; 9; 10]) 4 = true)
    by (vm_compute; reflexivity).
  assert (H4 : 1 * 4 <= getSize (mDesc (example_queue 8 1))
                        - occupancy (example_queue 8 1)
                            (mem (World (example_mem 8 4 6) [])))
    by (vm_compute; discriminate).
  assert (H5 : readPos (example_queue 8 1) (mem (World (example_mem 8 4 6) []))
               <= writePos (example_queue 8 1)
                    (mem (World (example_mem 8 4 6) [])))
    by (vm_compute; discriminate).
  assert (H6 : writePos (example_queue 8 1) (mem (World (example_mem 8 4 6) []))
               + 1 * 4 < 2 ^ 64)
    by (vm_compute; reflexivity).
  split; [exact H1|]. split; [exact H2|]. split; [exact H3|].
  split; [exact H4|]. split; [exact H5|]. split; [exact H6|].
  exact (fifo_write 1 _ _ _ 4 H1 H2 H3 H4 H5 H6).
Defined.

Lemma read_takes (sizeofT : Z) (q : MessageQueue) (w : world)
  (dst : list byte) (count : Z) :
  well_formed q (mem w) = true ->
  occupancy q (mem w) <= getSize (mDesc q) ->
  array_of sizeofT dst count = true ->
  sizeofT * count <= occupancy q (mem w) ->
  readPos q (mem w) + sizeofT * count < 2 ^ 64 ->
  exists w',
    read sizeofT q dst count w
    = Ok ((true, take (Z.to_nat (sizeofT * count)) (pending q (mem w))), w')
    /\ pending q (mem w')
       = drop (Z.to_nat (sizeofT * count)) (pending q (mem w))
    /\ well_formed q (mem w') = true
    /\ readPos q (mem w') = readPos q (mem w) + sizeofT * count
    /\ occupancy q (mem w') = occupancy q (mem w) - sizeofT * count.
Proof.
  intros Hwf Hocc Harr Hfit Hnowrap.
  destruct (well_formed_elim _ _ Hwf) as (_ & HC & Hcm & Hring & _ & Hrr & _).
  destruct (array_of_elim _ _ _ Harr) as (HT & Hcount & Hlen & Hmax).
  pose proof (word_at_range (mem w) (mWritePtr q)) as HWr.
  pose proof (word_at_range (mem w) (mReadPtr q)) as HRr.
  fold (writePos q (mem w)) in HWr. fold (readPos q (mem w)) in HRr.
  pose proof (occupancy_range q (mem w)) as Ho.
  assert (Hn : 0 <= sizeofT * count) by nia.
  assert (Hp : Z.of_nat (length (pending q (mem w))) = occupancy q (mem w)).
  { unfold pending. apply ring_get_length; try done. lia. }
  assert (Hlook : forall i, 0 <= i < occupancy q (mem w) ->
            pending q (mem w) !! Z.to_nat i
            = mem w !! (mRing q + (readPos q (mem w) + i) mod getSize (mDesc q))).
  { intros i Hi. unfold pending. apply ring_get_lookup; try done. lia. }
  eexists. rewrite read_accept_eq by done. split.
  - do 3 f_equal. symmetry. apply ring_get_unique; try done; [lia| |].
    + rewrite length_take. lia.
    + intros i Hi. rewrite lookup_take_lt by lia. apply Hlook. lia.
  - cbn [mem]. set (m' := map_bytes _ _ _).
    assert (Hwf' : well_formed q m' = true) by by apply after_read_well_formed.
    assert (HR' : readPos q m' = readPos q (mem w) + sizeofT * count).
    { unfold m'. rewrite after_read_readPos.
      rewrite wrap64_small by apply wrap64_range. apply wrap64_small. lia. }
    assert (Eocc' : occupancy q m' = occupancy q (mem w) - sizeofT * count).
    { unfold m'. rewrite occupancy_after_read by done. unfold occupancy in *.
      apply wrap64_sub_add_r; lia. }
    split; [|repeat split; assumption].
    unfold pending at 1. rewrite HR', Eocc'. symmetry.
    apply ring_get_unique; try done.
    + by apply well_formed_ring_mapped.
    + lia.
    + rewrite length_drop. lia.
    + intros i Hi. rewrite lookup_drop.
      replace (Z.to_nat (sizeofT * count) + Z.to_nat i)%nat
        with (Z.to_nat (sizeofT * count + i)) by lia.
      rewrite Hlook by lia. rewrite Z.add_assoc. symmetry.
      apply after_read_frame. apply apart_elim in Hrr.
      pose proof (Z.mod_pos_bound
                    (readPos q (mem w) + sizeofT * count + i) _ HC). lia.
Qed.

(** X2: [read(data, count)] takes from the front of the stream. When at least
    n = count * sizeof(T) bytes are unread (and R + n < 2^64), the read returns
    true, hands out the n oldest unread bytes in the order they were written,
    and leaves the others unread, in their order. *)
Theorem fifo_read (sizeofT : Z) (q : MessageQueue) (w : world)
  (dst : list byte) (count : Z) :
  well_formed q (mem w) = true ->
  occupancy q (mem w) <= getSize (mDesc q) ->
  array_of sizeofT dst count = true ->
  sizeofT * count <= occupancy q (mem w) ->
  readPos q (mem w) + sizeofT * count < 2 ^ 64 ->
  exists w',
    read sizeofT q dst count w
    = Ok ((true, take (Z.to_nat (sizeofT * count)) (pending q (mem w))), w')
    /\ pending q (mem w')
       = drop (Z.to_nat (sizeofT * count)) (pending q (mem w)).
Proof.
  intros Hwf Hocc Harr Hfit Hnowrap.
  destruct (read_takes sizeofT q w dst count Hwf Hocc Harr Hfit Hnowrap)
    as (w' & Hr & Hp & _).
  by exists w'.
Qed.

Lemma fifo_read_witness :
  well_formed (example_queue 8 1) (example_mem 8 4 6) = true
  /\ occupancy (example_queue 8 1) (example_mem 8 4 6) <= 8
  /\ array_of 1 (zeros 1) 1 = true
  /\ 1 * 1 <= occupancy (example_queue 8 1) (example_mem 8 4 6)
  /\ readPos (example_queue 8 1) (example_mem 8 4 6) + 1 * 1 < 2 ^ 64
  /\ exists w',
       read 1 (example_queue 8 1) (zeros 1) 1 (World (example_mem 8 4 6) [])
       = Ok ((true, take 1 (pending (example_queue 8 1) (example_mem 8 4 6))),
             w')
       /\ pending (example_queue 8 1) (mem w')
          = drop 1 (pending (example_queue 8 1) (example_mem 8 4 6)).
Proof.
  assert (H1 : well_formed (example_queue 8 1)
                 (mem (World (example_mem 8 4 6) [])) = true)
    by (vm_compute; reflexivity).
  assert (H2 : occupancy (example_queue 8 1) (mem (World (example_mem 8 4 6) []))
               <= getSize (mDesc (example_queue 8 1)))
    by (vm_compute; discriminate).
  assert (H3 : array_of 1 (zeros 1) 1 = true) by (vm_compute; reflexivity).
  assert (H4 : 1 * 1 <= occupancy (example_queue 8 1)
                          (mem (World (example_mem 8 4 6) [])))
    by (vm_compute; discriminate).
  assert (H5 : readPos (example_queue 8 1) (mem (World (example_mem 8 4 6) []))
               + 1 * 1 < 2 ^ 64)
    by (vm_compute; reflexivity).
  split; [exact H1|]. split; [exact H2|]. split; [exact H3|].
  split; [exact H4|]. split; [exact H5|].
  exact (fifo_read 1 _ _ _ 1 H1 H2 H3 H4 H5).
Defined.

(** * Space accounting *)



(** * Capacity in records *)

(** X5: [getQuantumCount()] is the capacity of the queue in records. On an
    empty queue whose quantum is the record width, [getQuantumCount()] returns
    C / sizeof(T) and changes nothing, and a write of [count] records is
    accepted exactly when [count] is at most that number. *)
Theorem record_capacity (sizeofT : Z) (q : MessageQueue) (w : world)
  (data : list byte) (count : Z) :
  well_formed q (mem w) = true ->
  writePos q (mem w) = readPos q (mem w) ->
  getQuantumSize q = sizeofT ->
  array_of sizeofT data count = true ->
  exists b w',
    getQuantumCount q w = Ok (getSize (mDesc q) / sizeofT, w)
    /\ write sizeofT q data count w = Ok (b, w')
    /\ (b = true <-> count <= getSize (mDesc q) / sizeofT).
Proof.
  intros Hwf Hempty HQ Harr.
  destruct (well_formed_elim _ _ Hwf) as (_ & HC & Hcm & Hring & _).
  destruct (array_of_elim _ _ _ Harr) as (HT & Hcount & Hlen & Hmax).
  pose proof (getSize_range (mDesc q)) as HCr.
  unfold SIZE_MAX in Hmax. unfold getQuantumSize in HQ.
  assert (Hn : 0 <= sizeofT * count) by nia.
  assert (Hocc : occupancy q (mem w) = 0).
  { unfold occupancy. by rewrite Hempty, Z.sub_diag. }
  assert (Hdiv : count <= getSize (mDesc q) / sizeofT
                 <-> sizeofT * count <= getSize (mDesc q)).
  { split; intros H.
    - pose proof (Z.mul_div_le (getSize (mDesc q)) sizeofT HT). nia.
    - by apply Z.div_le_lower_bound. }
  assert (Hq : getQuantumCount q w = Ok (getSize (mDesc q) / sizeofT, w)).
  { unfold getQuantumCount, udiv. rewrite HQ.
    destruct (Z.eqb_spec sizeofT 0); [lia|done]. }
  destruct (Z_lt_le_dec (getSize (mDesc q)) (sizeofT * count)) as [Hlt|Hge].
  - exists false. eexists. rewrite write_refuse_eq; try done.
    + split; [done|]. split; [reflexivity|]. rewrite Hdiv. split; [done|lia].
    + rewrite Hocc, Z.sub_0_r, !wrap64_small by lia. done.
  - exists true. eexists. rewrite write_accept_eq by (done || lia).
    split; [done|]. split; [reflexivity|]. by rewrite Hdiv.
Qed.

Lemma record_capacity_witness :
  well_formed (example_queue 8 4) (example_mem 8 6 6) = true
  /\ writePos (example_queue 8 4) (example_mem 8 6 6)
     = readPos (example_queue 8 4) (example_mem 8 6 6)
  /\ getQuantumSize (example_queue 8 4) = 4
  /\ array_of 4 (zeros 12) 3 = true
  /\ exists w',
       getQuantumCount (example_queue 8 4) (World (example_mem 8 6 6) [])
       = Ok (2, World (example_mem 8 6 6) [])
       /\ write 4 (example_queue 8 4) (zeros 12) 3
            (World (example_mem 8 6 6) []) = Ok (false, w').
Proof.
  assert (H1 : well_formed (example_queue 8 4)
                 (mem (World (example_mem 8 6 6) [])) = true)
    by (vm_compute; reflexivity).
  assert (H2 : writePos (example_queue 8 4) (mem (World (example_mem 8 6 6) []))
               = readPos (example_queue 8 4)
                   (mem (World (example_mem 8 6 6) [])))
    by (vm_compute; reflexivity).
  assert (H3 : getQuantumSize (example_queue 8 4) = 4)
    by (vm_compute; reflexivity).
  assert (H4 : array_of 4 (zeros 12) 3 = true) by (vm_compute; reflexivity).
  destruct (record_capacity 4 _ _ _ 3 H1 H2 H3 H4) as (b & w' & Hq & Hw & Hiff).
  split; [exact H1|]. split; [exact H2|]. split; [exact H3|].
  split; [exact H4|]. exists w'. split; [exact Hq|].
  destruct b; [|exact Hw].
  exfalso. destruct Hiff as [Hiff _]. specialize (Hiff eq_refl).
  vm_compute in Hiff. apply Hiff. reflexivity.
Defined.

(** * The runs stay inside the ring *)

(** X6: the runs of [beginWrite] and [beginRead] stay inside the ring. For a
    request of n bytes the two runs hold n bytes together; the first run lies
    inside the ring; for n <= C the second run is empty or starts at the ring
    base and ends at or before the first run begins, so the two runs are
    disjoint and inside the ring. Neither function tests n against C: for
    n > C the second run starts at the ring base and reaches into the first. *)
Theorem transaction_in_bounds (q : MessageQueue) (w : world) (n : Z) :
  well_formed q (mem w) = true ->
  0 <= n < 2 ^ 64 ->
  let C := getSize (mDesc q) in
  let inside (tx : transaction.t) :=
    let first := transaction.first tx in
    let second := transaction.second tx in
    region.length first + region.length second = n
    /\ mRing q <= region.address first
    /\ region.address first + region.length first <= mRing q + C
    /\ (n <= C ->
        region.length second = 0
        \/ (region.address second = mRing q
            /\ region.address second + region.length second
               <= region.address first))
    /\ (C < n ->
        region.address second = mRing q
        /\ region.address first
           < region.address second + region.length second) in
  (exists tx w', beginWrite q n w = Ok (tx, w') /\ inside tx)
  /\ (exists tx w', beginRead q n w = Ok (tx, w') /\ inside tx).
Proof.
  intros Hwf Hn C inside.
  destruct (well_formed_elim _ _ Hwf) as (_ & HC & Hcm & _).
  pose proof (getSize_range (mDesc q)) as HCr. fold C in HC, HCr.
  assert (Hsplit : forall p,
            inside (if C - p mod C <? n
                    then transaction.mk
                           (region.mk (mRing q + p mod C) (C - p mod C))
                           (region.mk (mRing q) (wrap64 (n - (C - p mod C))))
                    else transaction.mk (region.mk (mRing q + p mod C) n)
                           (region.mk 0 0))).
  { intros p. unfold inside.
    pose proof (Z.mod_pos_bound p C HC) as Hoff.
    destruct (Z.ltb_spec (C - p mod C) n) as [Hwrap|Hfit];
      cbn [transaction.first transaction.second region.address region.length].
    - rewrite wrap64_small by lia. repeat split; lia.
    - repeat split; lia. }
  split; eexists _, _.
  - rewrite beginWrite_eq by done. split; [reflexivity|]. apply Hsplit.
  - rewrite beginRead_eq by done. split; [reflexivity|]. apply Hsplit.
Qed.

Lemma transaction_in_bounds_witness :
  well_formed (example_queue 8 1) (example_mem 8 4 6) = true
  /\ 0 <= 5 < 2 ^ 64
  /\ exists tx w',
       beginWrite (example_queue 8 1) 5 (World (example_mem 8 4 6) [])
       = Ok (tx, w')
       /\ region.length (transaction.first tx)
          + region.length (transaction.second tx) = 5
       /\ region.address (transaction.first tx)
          + region.length (transaction.first tx) <= 12288 + 8.
Proof.
  assert (H1 : well_formed (example_queue 8 1)
                 (mem (World (example_mem 8 4 6) [])) = true)
    by (vm_compute; reflexivity).
  assert (H2 : 0 <= 5 < 2 ^ 64) by lia.
  destruct (transaction_in_bounds _ _ 5 H1 H2)
    as [(tx & w' & Hb & Hsum & _ & Hend & _) _].
  split; [exact H1|]. split; [exact H2|].
  exists tx, w'. split; [exact Hb|]. split; [exact Hsum | exact Hend].
Defined.

(** * Where the next operation starts *)

Lemma wrapped_position p n C :
  0 < C -> 0 <= p < 2 ^ 64 -> 0 <= n < 2 ^ 64 ->
  (wrap64 (p + n) mod C = (p mod C + n) mod C
   <-> p + n < 2 ^ 64 \/ 2 ^ 64 mod C = 0).
Proof.
  intros HC Hp Hn. rewrite mod_mod_add by done.
  destruct (Z_lt_le_dec (p + n) (2 ^ 64)) as [Hs|Hw].
  - rewrite wrap64_small by lia. split; [by left|done].
  - assert (E : wrap64 (p + n) = p + n - 2 ^ 64).
    { unfold wrap64. symmetry. apply Z.mod_unique with (q := 1); lia. }
    rewrite E. split.
    + intros H. right.
      replace (2 ^ 64) with (p + n - (p + n - 2 ^ 64)) at 1 by lia.
      rewrite Zminus_mod, H, Z.sub_diag. by apply Z.mod_0_l; lia.
    + intros [?|H]; [lia|].
      rewrite Zminus_mod, H, Z.sub_0_r. by rewrite Z.mod_mod by lia.
Qed.

(** X7: where the next operation starts. After a successful write of n bytes
    the next [beginWrite] starts at ring offset ((W mod C) + n) mod C, the byte
    after the last one written, exactly when the 64-bit counter did not wrap
    (W + n < 2^64) or the capacity divides 2^64; likewise for [read] and
    [beginRead] with R. The offset is computed from the wrapped counter, so
    for other capacities a counter wrap-around moves the position. *)
Theorem operations_are_contiguous (sizeofT : Z) (q : MessageQueue) (w : world)
  (data : list byte) (count k : Z) :
  well_formed q (mem w) = true ->
  occupancy q (mem w) <= getSize (mDesc q) ->
  array_of sizeofT data count = true ->
  let C := getSize (mDesc q) in
  let n := sizeofT * count in
  (n <= C - occupancy q (mem w) ->
   exists w1 tx w2,
     write sizeofT q data count w = Ok (true, w1)
     /\ beginWrite q k w1 = Ok (tx, w2)
     /\ (region.address (transaction.first tx)
         = mRing q + (writePos q (mem w) mod C + n) mod C
         <-> writePos q (mem w) + n < 2 ^ 64 \/ 2 ^ 64 mod C = 0))
  /\ (n <= occupancy q (mem w) ->
      exists out w1 tx w2,
        read sizeofT q data count w = Ok ((true, out), w1)
        /\ beginRead q k w1 = Ok (tx, w2)
        /\ (region.address (transaction.first tx)
            = mRing q + (readPos q (mem w) mod C + n) mod C
            <-> readPos q (mem w) + n < 2 ^ 64 \/ 2 ^ 64 mod C = 0)).
Proof.
  intros Hwf Hocc Harr. cbv zeta.
  destruct (well_formed_elim _ _ Hwf) as (_ & HC & Hcm & _).
  destruct (array_of_elim _ _ _ Harr) as (HT & Hcount & Hlen & Hmax).
  pose proof (word_at_range (mem w) (mWritePtr q)) as HWr.
  pose proof (word_at_range (mem w) (mReadPtr q)) as HRr.
  fold (writePos q (mem w)) in HWr. fold (readPos q (mem w)) in HRr.
  unfold SIZE_MAX in Hmax.
  assert (Hn : 0 <= sizeofT * count < 2 ^ 64) by nia.
  assert (Haddr : forall a b : Z, mRing q + a = mRing q + b <-> a = b)
    by (intros; lia).
  split; intros Hfit.
  - eexists _, _, _. rewrite write_accept_eq by done.
    split; [reflexivity|]. set (m1 := map_bytes _ _ _).
    assert (Hwf1 : well_formed q m1 = true).
    { unfold m1. apply after_write_well_formed; (done || lia). }
    destruct (well_formed_elim _ _ Hwf1) as (_ & _ & Hcm1 & _).
    rewrite beginWrite_eq by done. split; [reflexivity|]. cbn [mem].
    assert (EW : writePos q m1 = wrap64 (writePos q (mem w) + sizeofT * count)).
    { unfold m1. rewrite after_write_writePos.
      apply wrap64_small, wrap64_range. }
    fold m1. rewrite EW.
    destruct (_ <? k);
      cbn [transaction.first region.address]; rewrite Haddr;
      by apply wrapped_position.
  - eexists _, _, _, _. rewrite read_accept_eq by done.
    split; [reflexivity|]. set (m1 := map_bytes _ _ _).
    assert (Hwf1 : well_formed q m1 = true).
    { unfold m1. by apply after_read_well_formed. }
    destruct (well_formed_elim _ _ Hwf1) as (_ & _ & Hcm1 & _).
    rewrite beginRead_eq by done. split; [reflexivity|]. cbn [mem].
    assert (ER : readPos q m1 = wrap64 (readPos q (mem w) + sizeofT * count)).
    { unfold m1. rewrite after_read_readPos.
      apply wrap64_small, wrap64_range. }
    fold m1. rewrite ER.
    destruct (_ <? k);
      cbn [transaction.first region.address]; rewrite Haddr;
      by apply wrapped_position.
Qed.

Lemma operations_are_contiguous_witness :
  well_formed (example_queue 8 1) (example_mem 8 4 6) = true
  /\ occupancy (example_queue 8 1) (example_mem 8 4 6) <= 8
  /\ array_of 1 (bytes_of [7; 8; 9]) 3 = true
  /\ exists w1 tx w2,
       write 1 (example_queue 8 1) (bytes_of [7; 8; 9]) 3
         (World (example_mem 8 4 6) []) = Ok (true, w1)
       /\ beginWrite (example_queue 8 1) 1 w1 = Ok (tx, w2)
       /\ region.address (transaction.first tx) = 12288 + 1.
Proof.
  assert (H1 : well_formed (example_queue 8 1)
                 (mem (World (example_mem 8 4 6) [])) = true)
    by (vm_compute; reflexivity).
  assert (H2 : occupancy (example_queue 8 1) (mem (World (example_mem 8 4 6) []))
               <= getSize (mDesc (example_queue 8 1)))
    by (vm_compute; discriminate).
  assert (H3 : array_of 1 (bytes_of [7; 8; 9]) 3 = true)
    by (vm_compute; reflexivity).
  destruct (operations_are_contiguous 1 _ _ _ 3 1 H1 H2 H3) as [Hw _].
  destruct (Hw ltac:(vm_compute; discriminate))
    as (w1 & tx & w2 & Hw1 & Hb & Hiff).
  split; [exact H1|]. split; [exact H2|]. split; [exact H3|].
  exists w1, tx, w2. split; [exact Hw1|]. split; [exact Hb|].
  apply Hiff. left. vm_compute. reflexivity.
Defined.


(** * Streams of single records *)

Lemma pending_length q m :
  well_formed q m = true ->
  occupancy q m <= getSize (mDesc q) ->
  Z.of_nat (length (pending q m)) = occupancy q m.
Proof.
  intros Hwf Hocc.
  destruct (well_formed_elim _ _ Hwf) as (_ & HC & _ & Hring & _).
  unfold pending. apply ring_get_length; try done.
  pose proof (occupancy_range q m). lia.
Qed.

Lemma write_each_appends sizeofT q rs : forall w,
  well_formed q (mem w) = true ->
  occupancy q (mem w) <= getSize (mDesc q) ->
  Forall (fun r => array_of sizeofT r 1 = true) rs ->
  sizeofT * Z.of_nat (length rs) <= getSize (mDesc q) - occupancy q (mem w) ->
  readPos q (mem w) <= writePos q (mem w) ->
  writePos q (mem w) + sizeofT * Z.of_nat (length rs) < 2 ^ 64 ->
  exists w',
    write_each sizeofT q rs w = Ok (true, w')
    /\ pending q (mem w') = pending q (mem w) ++ concat rs
    /\ well_formed q (mem w') = true
    /\ readPos q (mem w') = readPos q (mem w)
    /\ writePos q (mem w')
       = writePos q (mem w) + sizeofT * Z.of_nat (length rs).
Proof.
  induction rs as [|r rs IH]; intros w Hwf Hocc Hrs Hfit Hle Hnowrap.
  - exists w. cbn [write_each concat length]. rewrite app_nil_r.
    repeat split; try done. lia.
  - apply Forall_cons in Hrs as [Hr Hrs].
    destruct (array_of_elim _ _ _ Hr) as (HT & _ & Hlen & _).
    cbn [length] in Hfit, Hnowrap. rewrite Nat2Z.inj_succ in Hfit, Hnowrap.
    pose proof (word_at_range (mem w) (mWritePtr q)) as HWr.
    pose proof (word_at_range (mem w) (mReadPtr q)) as HRr.
    fold (writePos q (mem w)) in HWr. fold (readPos q (mem w)) in HRr.
    assert (Eocc : occupancy q (mem w) = writePos q (mem w) - readPos q (mem w)).
    { unfold occupancy. apply wrap64_small. lia. }
    destruct (write_appends sizeofT q w r 1 Hwf Hocc Hr ltac:(nia) Hle
                ltac:(nia)) as (w1 & Hw1 & Hp1 & Hwf1 & HR1 & HW1).
    assert (Eocc1 : occupancy q (mem w1) = occupancy q (mem w) + sizeofT).
    { unfold occupancy at 1. rewrite HR1, HW1. rewrite wrap64_small; lia. }
    destruct (IH w1 Hwf1 ltac:(nia) Hrs ltac:(nia) ltac:(lia) ltac:(nia))
      as (w' & Hw' & Hp' & Hwf' & HR' & HW').
    exists w'. cbn [write_each]. unfold bind, write1. rewrite Hw1.
    cbv beta iota. rewrite Hw'. split; [done|].
    split; [by rewrite Hp', Hp1, <- app_assoc|].
    split; [done|]. split; [congruence|].
    rewrite HW', HW1. cbn [length]. lia.
Qed.

Lemma read_each_delivers sizeofT q rs : forall dsts w tl,
  well_formed q (mem w) = true ->
  occupancy q (mem w) <= getSize (mDesc q) ->
  Forall (fun r => array_of sizeofT r 1 = true) rs ->
  Forall (fun r => array_of sizeofT r 1 = true) dsts ->
  length dsts = length rs ->
  pending q (mem w) = concat rs ++ tl ->
  readPos q (mem w) + sizeofT * Z.of_nat (length rs) < 2 ^ 64 ->
  exists w',
    read_each sizeofT q dsts w = Ok ((true, rs), w')
    /\ pending q (mem w') = tl
    /\ well_formed q (mem w') = true.
Proof.
  induction rs as [|r rs IH]; intros dsts w tl Hwf Hocc Hrs Hds Hlen Hp Hnowrap.
  - destruct dsts; [|done]. exists w. cbn [read_each]. by repeat split.
  - destruct dsts as [|dst dsts]; [done|].
    apply Forall_cons in Hrs as [Hr Hrs]. apply Forall_cons in Hds as [Hd Hds].
    destruct (array_of_elim _ _ _ Hr) as (HT & _ & Hlr & _).
    cbn [length] in Hnowrap, Hlen. rewrite Nat2Z.inj_succ in Hnowrap.
    pose proof (pending_length q (mem w) Hwf Hocc) as Hpl.
    rewrite Hp in Hpl. cbn [concat] in Hp, Hpl.
    rewrite <- app_assoc in Hp. rewrite !length_app, !Nat2Z.inj_add in Hpl.
    destruct (read_takes sizeofT q w dst 1 Hwf Hocc Hd ltac:(lia) ltac:(nia))
      as (w1 & Hr1 & Hp1 & Hwf1 & HR1 & Ho1).
    rewrite Hp in Hr1, Hp1.
    replace (Z.to_nat (sizeofT * 1)) with (length r) in Hr1, Hp1 by lia.
    rewrite take_app_length in Hr1. rewrite drop_app_length in Hp1.
    destruct (IH dsts w1 tl Hwf1 ltac:(lia) Hrs Hds ltac:(lia) Hp1 ltac:(nia))
      as (w' & Hr' & Hp' & Hwf').
    exists w'. cbn [read_each]. unfold bind, read1. rewrite Hr1.
    cbv beta iota. cbn [fst snd]. rewrite Hr'. by repeat split.
Qed.

(** X3: the single-record forms [write(data)] and [read(data)] carry a stream
    of records. Records sent one by one that fit the free space are all
    accepted and appended to the unread bytes in the order sent; sent to an
    empty queue and received one by one into as many buffers, every read
    succeeds, the records arrive in the order sent, and the queue is empty
    again. *)
Theorem unit_forms_stream (sizeofT : Z) (q : MessageQueue) (w : world)
  (rs dsts : list (list byte)) :
  well_formed q (mem w) = true ->
  occupancy q (mem w) <= getSize (mDesc q) ->
  Forall (fun r => array_of sizeofT r 1 = true) rs ->
  Forall (fun r => array_of sizeofT r 1 = true) dsts ->
  length dsts = length rs ->
  sizeofT * Z.of_nat (length rs) <= getSize (mDesc q) - occupancy q (mem w) ->
  readPos q (mem w) <= writePos q (mem w) ->
  writePos q (mem w) + sizeofT * Z.of_nat (length rs) < 2 ^ 64 ->
  exists w1,
    write_each sizeofT q rs w = Ok (true, w1)
    /\ pending q (mem w1) = pending q (mem w) ++ concat rs
    /\ (pending q (mem w) = [] ->
        exists w2,
          read_each sizeofT q dsts w1 = Ok ((true, rs), w2)
          /\ pending q (mem w2) = []).
Proof.
  intros Hwf Hocc Hrs Hds Hlen Hfit Hle Hnowrap.
  destruct (write_each_appends sizeofT q rs w Hwf Hocc Hrs Hfit Hle Hnowrap)
    as (w1 & Hw1 & Hp1 & Hwf1 & HR1 & HW1).
  exists w1. split; [done|]. split; [done|]. intros Hempty.
  pose proof (word_at_range (mem w) (mWritePtr q)) as HWr.
  pose proof (word_at_range (mem w) (mReadPtr q)) as HRr.
  fold (writePos q (mem w)) in HWr. fold (readPos q (mem w)) in HRr.
  assert (Hn : 0 <= sizeofT * Z.of_nat (length rs)).
  { destruct rs as [|r rs0]; [cbn [length]; lia|].
    apply Forall_cons in Hrs as [Hr _].
    destruct (array_of_elim _ _ _ Hr) as (HT & _). nia. }
  assert (Eocc : occupancy q (mem w) = writePos q (mem w) - readPos q (mem w)).
  { unfold occupancy. apply wrap64_small. lia. }
  assert (Eocc1 : occupancy q (mem w1)
                  = occupancy q (mem w) + sizeofT * Z.of_nat (length rs)).
  { unfold occupancy at 1. rewrite HR1, HW1. rewrite wrap64_small; lia. }
  rewrite Hempty, app_nil_l in Hp1. rewrite <- (app_nil_r (concat rs)) in Hp1.
  destruct (read_each_delivers sizeofT q rs dsts w1 [] Hwf1 ltac:(lia) Hrs Hds
              Hlen Hp1 ltac:(lia)) as (w2 & Hr2 & Hp2 & _).
  by exists w2.
Qed.

Lemma unit_forms_stream_witness :
  well_formed (example_queue 8 2) (example_mem 8 6 6) = true
  /\ occupancy (example_queue 8 2) (example_mem 8 6 6) <= 8
  /\ Forall (fun r => array_of 2 r 1 = true)
       [bytes_of [1; 2]; bytes_of [3; 4]; bytes_of [5; 6]]
  /\ Forall (fun r => array_of 2 r 1 = true) [zeros 2; zeros 2; zeros 2]
  /\ 2 * 3 <= 8 - occupancy (example_queue 8 2) (example_mem 8 6 6)
  /\ readPos (example_queue 8 2) (example_mem 8 6 6)
     <= writePos (example_queue 8 2) (example_mem 8 6 6)
  /\ writePos (example_queue 8 2) (example_mem 8 6 6) + 2 * 3 < 2 ^ 64
  /\ pending (example_queue 8 2) (example_mem 8 6 6) = []
  /\ exists w1 w2,
       write_each 2 (example_queue 8 2)
         [bytes_of [1; 2]; bytes_of [3; 4]; bytes_of [5; 6]]
         (World (example_mem 8 6 6) []) = Ok (true, w1)
       /\ read_each 2 (example_queue 8 2) [zeros 2; zeros 2; zeros 2] w1
          = Ok ((true, [bytes_of [1; 2]; bytes_of [3; 4]; bytes_of [5; 6]]),
                w2)
       /\ pending (example_queue 8 2) (mem w2) = [].
Proof.
  assert (H1 : well_formed (example_queue 8 2)
                 (mem (World (example_mem 8 6 6) [])) = true)
    by (vm_compute; reflexivity).
  assert (H2 : occupancy (example_queue 8 2) (mem (World (example_mem 8 6 6) []))
               <= getSize (mDesc (example_queue 8 2)))
    by (vm_compute; discriminate).
  assert (H3 : Forall (fun r => array_of 2 r 1 = true)
                 [bytes_of [1; 2]; bytes_of [3; 4]; bytes_of [5; 6]])
    by (repeat constructor).
  assert (H4 : Forall (fun r => array_of 2 r 1 = true)
                 [zeros 2; zeros 2; zeros 2])
    by (repeat constructor).
  assert (H5 : 2 * Z.of_nat (length [bytes_of [1; 2]; bytes_of [3; 4];
                                     bytes_of [5; 6]])
               <= getSize (mDesc (example_queue 8 2))
                  - occupancy (example_queue 8 2)
                      (mem (World (example_mem 8 6 6) [])))
    by (vm_compute; discriminate).
  assert (H6 : readPos (example_queue 8 2) (mem (World (example_mem 8 6 6) []))
               <= writePos (example_queue 8 2)
                    (mem (World (example_mem 8 6 6) [])))
    by (vm_compute; discriminate).
  assert (H7 : writePos (example_queue 8 2) (mem (World (example_mem 8 6 6) []))
               + 2 * Z.of_nat (length [bytes_of [1; 2]; bytes_of [3; 4];
                                       bytes_of [5; 6]]) < 2 ^ 64)
    by (vm_compute; reflexivity).
  assert (H8 : pending (example_queue 8 2)
                 (mem (World (example_mem 8 6 6) [])) = [])
    by (vm_compute; reflexivity).
  destruct (unit_forms_stream 2 _ _ _ _ H1 H2 H3 H4 eq_refl H5 H6 H7)
    as (w1 & Hw & _ & Hr).
  destruct (Hr H8) as (w2 & Hr2 & Hp2).
  split; [exact H1|]. split; [exact H2|]. split; [exact H3|].
  split; [exact H4|]. split; [exact H5|]. split; [exact H6|].
  split; [exact H7|]. split; [exact H8|].
  exists w1, w2. split; [exact Hw|]. split; [exact Hr2 | exact Hp2].
Defined.


(** * The region mapper, composed *)

Lemma grantor_fits_elim PAGE_SIZE fds g need :
  0 < PAGE_SIZE ->
  grantor_fits PAGE_SIZE fds g need = true ->
  (exists fd, fds !! Z.to_nat (wrap32 (fdIndex g)) = Some fd)
  /\ wrap32 (fdIndex g) < 2 ^ 31
  /\ 0 <= page_base PAGE_SIZE g < 2 ^ 31
  /\ 0 <= page_delta PAGE_SIZE g
  /\ page_delta PAGE_SIZE g + need <= map_length PAGE_SIZE g
  /\ 0 <= map_length PAGE_SIZE g < 2 ^ 31.
Proof.
  intros HP. unfold grantor_fits.
  rewrite !andb_true_iff, !Z.ltb_lt, Z.leb_le.
  intros ((((Hfi & Hfd) & Hb) & Hl) & Hneed).
  pose proof (wrap32_range (offset g)) as HO.
  pose proof (wrap32_range (extent g)) as HE.
  pose proof (wrap32_range (fdIndex g)) as HF.
  destruct (page_floor (wrap32 (offset g)) PAGE_SIZE HP ltac:(lia)) as [Hfl Hrem].
  fold (page_base PAGE_SIZE g) in Hfl, Hrem.
  unfold map_length, page_delta in *.
  split.
  { apply lookup_lt_is_Some. lia. }
  repeat split; lia.
Qed.

Lemma mapGrantorDescr_eq PAGE_SIZE kernel q grantor_idx g fds fd need w :
  0 < PAGE_SIZE ->
  getNativeHandle (mDesc q) = Some fds ->
  0 <= grantor_idx ->
  getGrantors (mDesc q) !! Z.to_nat grantor_idx = Some g ->
  grantor_fits PAGE_SIZE fds g need = true ->
  fds !! Z.to_nat (wrap32 (fdIndex g)) = Some fd ->
  mapGrantorDescr PAGE_SIZE kernel q grantor_idx w
  = match kernel (mem w) 0 (map_length PAGE_SIZE g)
            (Z.lor PROT_READ PROT_WRITE) MAP_SHARED fd (page_base PAGE_SIZE g)
    with
    | Some (base, content) =>
        Ok (if base =? MAP_FAILED then 0 else base + page_delta PAGE_SIZE g,
            World (map_bytes (mem w) base content)
              (trace w ++ [Mmap 0 (map_length PAGE_SIZE g)
                             (Z.lor PROT_READ PROT_WRITE) MAP_SHARED fd
                             (page_base PAGE_SIZE g) base]))
    | None =>
        Ok (0,
            World (mem w)
              (trace w ++ [Mmap 0 (map_length PAGE_SIZE g)
                             (Z.lor PROT_READ PROT_WRITE) MAP_SHARED fd
                             (page_base PAGE_SIZE g) MAP_FAILED]))
    end.
Proof.
  intros HP Hh Hidx Hg Hfit Hfd.
  destruct (grantor_fits_elim _ _ _ _ HP Hfit) as (_ & Hfi & Hb & Hd & Hn & Hl).
  pose proof (wrap32_range (offset g)) as HOr.
  pose proof (wrap32_range (extent g)) as HEr.
  pose proof (wrap32_range (fdIndex g)) as HFr.
  unfold map_length, page_delta, page_base in *.
  set (O := wrap32 (offset g)) in *. set (E := wrap32 (extent g)) in *.
  set (O' := O / PAGE_SIZE * PAGE_SIZE) in *.
  assert (EmapOffset : to_int (wrap32 O') = O') by (apply to_int_small; lia).
  assert (Edelta : wrap32 (O - O') = O - O') by (apply wrap32_small; lia).
  assert (EmapLength : to_int (wrap32 (O - O' + E)) = O - O' + E)
    by (apply to_int_small; lia).
  assert (Efd : to_int (wrap32 (fdIndex g)) = wrap32 (fdIndex g))
    by (by apply to_int_wrap32).
  assert (EL : wrap64 (O - O' + E) = O - O' + E) by (apply wrap64_small; lia).
  unfold mapGrantorDescr, bind, handle. rewrite Hh.
  rewrite (index_eq _ _ g) by done. fold O E O'.
  rewrite EmapOffset, Edelta, EmapLength, Efd, EL.
  rewrite (index_eq _ _ fd) by (done || lia).
  unfold mmap.
  destruct (kernel (mem w) 0 (O - O' + E) (Z.lor PROT_READ PROT_WRITE)
              MAP_SHARED fd O') as [[base content]|]; [done|].
  by rewrite Z.eqb_refl.
Qed.

Lemma unmapGrantorDescr_eq PAGE_SIZE q grantor_idx g fds need address w :
  0 < PAGE_SIZE ->
  getNativeHandle (mDesc q) = Some fds ->
  0 <= grantor_idx ->
  getGrantors (mDesc q) !! Z.to_nat grantor_idx = Some g ->
  grantor_fits PAGE_SIZE fds g need = true ->
  address - page_delta PAGE_SIZE g <> 0 ->
  unmapGrantorDescr PAGE_SIZE q address grantor_idx w
  = Ok (tt,
        World (unmap_range (mem w) (address - page_delta PAGE_SIZE g)
                 (map_length PAGE_SIZE g))
          (trace w ++ [Munmap (address - page_delta PAGE_SIZE g)
                         (map_length PAGE_SIZE g)])).
Proof.
  intros HP Hh Hidx Hg Hfit Hbase.
  destruct (grantor_fits_elim _ _ _ _ HP Hfit) as (_ & Hfi & Hb & Hd & Hn & Hl).
  pose proof (wrap32_range (offset g)) as HOr.
  pose proof (wrap32_range (extent g)) as HEr.
  unfold map_length, page_delta, page_base in *.
  set (O := wrap32 (offset g)) in *. set (E := wrap32 (extent g)) in *.
  set (O' := O / PAGE_SIZE * PAGE_SIZE) in *.
  assert (EmapOffset : to_int (wrap32 O') = O') by (apply to_int_small; lia).
  assert (Edelta : wrap32 (O - O') = O - O') by (apply wrap32_small; lia).
  assert (EmapLength : to_int (wrap32 (O - O' + E)) = O - O' + E)
    by (apply to_int_small; lia).
  assert (EL : wrap64 (O - O' + E) = O - O' + E) by (apply wrap64_small; lia).
  unfold unmapGrantorDescr, bind, handle. rewrite Hh.
  rewrite (index_eq _ _ g) by done. fold O E O'.
  rewrite EmapOffset, Edelta, EmapLength, EL.
  by destruct (Z.eqb_spec (address - (O - O')) 0).
Qed.

Lemma unmap_range_lookup (m : gmap Z byte) a n x :
  unmap_range m a n !! x = if decide (a <= x < a + n) then None else m !! x.
Proof.
  unfold unmap_range. rewrite map_lookup_filter.
  destruct (m !! x) as [b|]; cbn; [|by case_decide].
  case_decide as Hx.
  - rewrite option_guard_False; [done|]. cbn. tauto.
  - rewrite option_guard_True; [done|]. cbn. done.
Qed.

Lemma unmap_map_bytes (m : gmap Z byte) base content :
  (forall i, 0 <= i < Z.of_nat (length content) -> m !! (base + i) = None) ->
  unmap_range (map_bytes m base content) base (Z.of_nat (length content)) = m.
Proof.
  intros Hfresh. apply map_eq. intros x.
  rewrite unmap_range_lookup. case_decide as Hx.
  - specialize (Hfresh (x - base) ltac:(lia)).
    by replace (base + (x - base)) with x in Hfresh by lia.
  - rewrite map_bytes_lookup. by rewrite decide_False.
Qed.


Lemma mapped_map_bytes_in m base content a n :
  0 <= n -> base <= a -> a + n <= base + Z.of_nat (length content) ->
  mapped (map_bytes m base content) a n = true.
Proof.
  intros Hn Ha Hle. apply mapped_intro. intros i Hi.
  rewrite map_bytes_lookup, decide_True by lia.
  apply lookup_lt_is_Some. lia.
Qed.

Section Construction.
Variables (sizeofT PAGE_SIZE : Z).
Variable kernel : gmap Z byte -> Z -> Z -> Z -> Z -> Z -> Z -> option (Z * list byte).
Variables (d : MQDescriptor) (fds : list Z) (g0 g1 g2 : GrantorDescriptor)
  (rest : list GrantorDescriptor).
Hypothesis HP : 0 < PAGE_SIZE.
Hypothesis Hgood : malformed sizeofT d = false.
Hypothesis Hh : getNativeHandle d = Some fds.
Hypothesis Hg : getGrantors d = g0 :: g1 :: g2 :: rest.
Hypothesis F0 : grantor_fits PAGE_SIZE fds g0 8 = true.
Hypothesis F1 : grantor_fits PAGE_SIZE fds g1 8 = true.
Hypothesis F2 : grantor_fits PAGE_SIZE fds g2 (getSize d) = true.
Hypothesis Kf : kernel_fresh kernel.
Hypothesis Ks : kernel_serves kernel.


End Construction.

Lemma example_kernel_serves : kernel_serves example_kernel.
Proof.
  intros m addr len prot flags fd off. eexists _, _. split; [reflexivity|].
  pose proof (top_address_nonneg m) as H0.
  pose proof (Z.div_pos (top_address m) 4096 H0 ltac:(lia)) as Hq.
  split; [apply repeat_length|]. unfold MAP_FAILED, wrap64.
  change ((-1) mod 2 ^ 64) with 18446744073709551615. split; lia.
Qed.

(** * Construction and destruction *)






(** X11: [mapGrantorDescr] and [unmapGrantorDescr] are inverse. For a grantor
    that fits, with a kernel that grants the mapping at fresh addresses,
    [mapGrantorDescr] returns a non-null address at which the grantor's extent
    is addressable, leaves existing mappings as they were, and
    [unmapGrantorDescr] at that address restores the address space. *)
Theorem map_unmap_round_trip (PAGE_SIZE : Z)
  (kernel : gmap Z byte -> Z -> Z -> Z -> Z -> Z -> Z -> option (Z * list byte))
  (q : MessageQueue) (grantor_idx : Z) (g : GrantorDescriptor)
  (fds : list Z) (need : Z) (w : world) :
  0 < PAGE_SIZE ->
  getNativeHandle (mDesc q) = Some fds ->
  0 <= grantor_idx ->
  getGrantors (mDesc q) !! Z.to_nat grantor_idx = Some g ->
  grantor_fits PAGE_SIZE fds g need = true ->
  0 <= need ->
  kernel_fresh kernel ->
  kernel_serves kernel ->
  exists p w1 w2,
    mapGrantorDescr PAGE_SIZE kernel q grantor_idx w = Ok (p, w1)
    /\ p <> 0
    /\ mapped (mem w1) p need = true
    /\ (forall x b, mem w !! x = Some b -> mem w1 !! x = Some b)
    /\ unmapGrantorDescr PAGE_SIZE q p grantor_idx w1 = Ok (tt, w2)
    /\ mem w2 = mem w.
Proof.
  intros HP Hh Hidx Hg Hfit Hneed Kf Ks.
  destruct (grantor_fits_elim _ _ _ _ HP Hfit)
    as ([fd Hfd] & _ & _ & Hd & Hn & Hl).
  destruct (Ks (mem w) 0 (map_length PAGE_SIZE g) (Z.lor PROT_READ PROT_WRITE)
              MAP_SHARED fd (page_base PAGE_SIZE g))
    as (base & content & K & Len & Pos & NF).
  assert (Fr : forall i, 0 <= i < Z.of_nat (length content) ->
            mem w !! (base + i) = None) by (by apply (Kf _ _ _ _ _ _ _ _ _ K)).
  eexists _, _, _.
  rewrite (mapGrantorDescr_eq _ _ _ _ g fds fd need) by done. rewrite K.
  destruct (Z.eqb_spec base MAP_FAILED) as [|_]; [done|].
  split; [reflexivity|]. cbn [mem]. split; [lia|]. split; [|split; [|split]].
  - apply mapped_map_bytes_in; lia.
  - intros x b Hx. rewrite map_bytes_lookup. case_decide as Hin; [|done].
    specialize (Fr (x - base) ltac:(lia)).
    replace (base + (x - base)) with x in Fr by lia. congruence.
  - rewrite (unmapGrantorDescr_eq _ _ _ g fds need) by (done || lia).
    reflexivity.
  - cbn [mem].
    replace (base + page_delta PAGE_SIZE g - page_delta PAGE_SIZE g)
      with base by lia.
    replace (map_length PAGE_SIZE g) with (Z.of_nat (length content)) by lia.
    by apply unmap_map_bytes.
Qed.

Lemma map_unmap_round_trip_witness :
  0 < 4096
  /\ grantor_fits 4096 [3] (Grantor 0 5000 100) 100 = true
  /\ kernel_fresh example_kernel
  /\ kernel_serves example_kernel
  /\ exists p w1 w2,
       mapGrantorDescr 4096 example_kernel
         (Queue (Descriptor [Grantor 0 5000 100] (Some [3]) 1 100) 0 0 0) 0
         (World (example_mem 8 0 0) []) = Ok (p, w1)
       /\ p <> 0
       /\ mapped (mem w1) p 100 = true
       /\ unmapGrantorDescr 4096
            (Queue (Descriptor [Grantor 0 5000 100] (Some [3]) 1 100) 0 0 0)
            p 0 w1 = Ok (tt, w2)
       /\ mem w2 = example_mem 8 0 0.
Proof.
  assert (HP : 0 < 4096) by lia.
  assert (F : grantor_fits 4096 [3] (Grantor 0 5000 100) 100 = true)
    by (vm_compute; reflexivity).
  destruct (map_unmap_round_trip 4096 example_kernel
              (Queue (Descriptor [Grantor 0 5000 100] (Some [3]) 1 100) 0 0 0)
              0 (Grantor 0 5000 100) [3] 100 (World (example_mem 8 0 0) [])
              HP eq_refl ltac:(lia) eq_refl F ltac:(lia)
              example_kernel_fresh example_kernel_serves)
    as (p & w1 & w2 & Hm & Hp & Hmp & _ & Hu & He).
  split; [exact HP|]. split; [exact F|].
  split; [exact example_kernel_fresh|]. split; [exact example_kernel_serves|].
  exists p, w1, w2. split; [exact Hm|]. split; [exact Hp|].
  split; [exact Hmp|]. split; [exact Hu | exact He].
Defined.

Lemma mapGrantorDescr_event PAGE_SIZE kernel q i w p w1 :
  mapGrantorDescr PAGE_SIZE kernel q i w = Ok (p, w1) ->
  exists addr len prot flags fd off r,
    trace w1 = trace w ++ [Mmap addr len prot flags fd off r]
    /\ (r = MAP_FAILED -> p = 0)
    /\ (kernel (mem w) addr len prot flags fd off = None -> r = MAP_FAILED).
Proof.
  unfold mapGrantorDescr, bind, handle, index, mmap, ret.
  destruct (getNativeHandle (mDesc q)) as [fds|]; [|done].
  destruct (i <? 0); [done|].
  destruct (getGrantors (mDesc q) !! Z.to_nat i) as [g|]; [|done].
  destruct (_ <? 0); [done|].
  destruct (fds !! _) as [fd|]; [|done].
  destruct (kernel _ _ _ _ _ _ _) as [[base content]|] eqn:Ek.
  - intros [= <- <-]. eexists _, _, _, _, _, _, _. split; [reflexivity|].
    split; [|by rewrite Ek]. intros ->. by rewrite Z.eqb_refl.
  - intros [= <- <-]. eexists _, _, _, _, _, _, _. split; [reflexivity|].
    split; [done|]. done.
Qed.

(** X12: a mapping failure is fatal for construction. For a descriptor that
    passes the checks the constructor returns only after three [mmap] calls
    none of which returned [MAP_FAILED], with the two zeroing stores between
    the second and the third; when the kernel refuses every mapping the
    constructor does not return (a [CHECK] aborts the process, or the lookup
    of the grantor faults). *)
Theorem mapping_failure_is_fatal (sizeofT PAGE_SIZE : Z)
  (kernel : gmap Z byte -> Z -> Z -> Z -> Z -> Z -> Z -> option (Z * list byte))
  (storage : Z * Z * Z) (d : MQDescriptor) (w : world) :
  malformed sizeofT d = false ->
  (forall q w',
     MessageQueue_ctor sizeofT PAGE_SIZE kernel storage d w = Ok (q, w') ->
     exists a1 l1 p1 f1 fd1 o1 r1 a2 l2 p2 f2 fd2 o2 r2 a3 l3 p3 f3 fd3 o3 r3,
       trace w' = trace w ++
         [Mmap a1 l1 p1 f1 fd1 o1 r1; Mmap a2 l2 p2 f2 fd2 o2 r2;
          AtomicStore (mReadPtr q) 0 memory_order_acquire;
          AtomicStore (mWritePtr q) 0 memory_order_acquire;
          Mmap a3 l3 p3 f3 fd3 o3 r3]
       /\ r1 <> MAP_FAILED /\ r2 <> MAP_FAILED /\ r3 <> MAP_FAILED)
  /\ ((forall m addr len prot flags fd off,
         kernel m addr len prot flags fd off = None) ->
      MessageQueue_ctor sizeofT PAGE_SIZE kernel storage d w = Abort
      \/ MessageQueue_ctor sizeofT PAGE_SIZE kernel storage d w = Fault).
Proof.
  intros Hgood.
  destruct storage as [[ring0 read0] write0].
  unfold MessageQueue_ctor. unfold malformed in Hgood. rewrite Hgood.
  unfold bind, CHECK, ret. cbn [mReadPtr mWritePtr mRing]. split.
  - intros q w'.
    destruct (mapGrantorDescr _ _ _ READPTRPOS w) as [[rp w1]| |] eqn:E1;
      [|done..].
    destruct (Z.eqb_spec rp 0) as [|Hrp]; [done|]. cbn [negb].
    destruct (mapGrantorDescr _ _ _ WRITEPTRPOS w1) as [[wp w2]| |] eqn:E2;
      [|done..].
    destruct (Z.eqb_spec wp 0) as [|Hwp]; [done|]. cbn [negb].
    unfold atomic_store at 1.
    destruct (store_bytes (mem w2) rp (le_bytes 8 0)) as [m3|]; [|done].
    unfold atomic_store at 1. cbn [mem trace].
    destruct (store_bytes m3 wp (le_bytes 8 0)) as [m4|]; [|done].
    destruct (mapGrantorDescr _ _ _ DATAPTRPOS _) as [[ring w5]| |] eqn:E3;
      [|done..].
    destruct (Z.eqb_spec ring 0) as [|Hring]; [done|]. cbn [negb].
    intros [= <- <-].
    destruct (mapGrantorDescr_event _ _ _ _ _ _ _ E1)
      as (a1 & l1 & p1 & f1 & fd1 & o1 & r1 & T1 & N1 & _).
    destruct (mapGrantorDescr_event _ _ _ _ _ _ _ E2)
      as (a2 & l2 & p2 & f2 & fd2 & o2 & r2 & T2 & N2 & _).
    destruct (mapGrantorDescr_event _ _ _ _ _ _ _ E3)
      as (a3 & l3 & p3 & f3 & fd3 & o3 & r3 & T3 & N3 & _).
    cbn [mem trace] in T3.
    exists a1, l1, p1, f1, fd1, o1, r1, a2, l2, p2, f2, fd2, o2, r2.
    exists a3, l3, p3, f3, fd3, o3, r3. cbn [mReadPtr mWritePtr].
    split; [rewrite T3, T2, T1; by rewrite <- !app_assoc|].
    split; [intros H; by apply N1 in H|].
    split; [intros H; by apply N2 in H|]. intros H; by apply N3 in H.
  - intros Hrefuse.
    destruct (mapGrantorDescr _ _ _ READPTRPOS w) as [[rp w1]| |] eqn:E1;
      [|by left|by right].
    destruct (mapGrantorDescr_event _ _ _ _ _ _ _ E1)
      as (a1 & l1 & p1 & f1 & fd1 & o1 & r1 & _ & N1 & R1).
    rewrite (N1 (R1 (Hrefuse _ _ _ _ _ _ _))). by left.
Qed.

Lemma mapping_failure_is_fatal_witness :
  malformed 1 (example_desc 8 1) = false
  /\ (forall m addr len prot flags fd off,
        failing_kernel m addr len prot flags fd off = None)
  /\ MessageQueue_ctor 1 4096 failing_kernel (0, 0, 0) (example_desc 8 1)
       (World ∅ []) = Abort.
Proof.
  assert (H1 : malformed 1 (example_desc 8 1) = false)
    by (vm_compute; reflexivity).
  assert (H2 : forall m addr len prot flags fd off,
             failing_kernel m addr len prot flags fd off = None)
    by (intros; reflexivity).
  destruct (mapping_failure_is_fatal 1 4096 failing_kernel (0, 0, 0)
              (example_desc 8 1) (World ∅ []) H1) as [_ Hf].
  split; [exact H1|]. split; [exact H2|].
  destruct (Hf H2) as [Ha|Ha]; [exact Ha|].
  vm_compute in Ha. discriminate Ha.
Defined.

(** X13: the destructor of an endpoint that was never bound. With the three
    pointer members null the destructor does nothing. It tests each pointer
    against null only: over a descriptor without a native handle (for which
    the constructor returns early, leaving the members unassigned) a
    non-null member makes [unmapGrantorDescr] dereference the null handle. *)
Theorem destructor_of_unbound_endpoint (PAGE_SIZE : Z) (d : MQDescriptor)
  (ring rp wp : Z) (w : world) :
  MessageQueue_dtor PAGE_SIZE (Queue d 0 0 0) w = Ok (tt, w)
  /\ (getNativeHandle d = None ->
      ring <> 0 \/ rp <> 0 \/ wp <> 0 ->
      MessageQueue_dtor PAGE_SIZE (Queue d ring rp wp) w = Fault).
Proof.
  split; [reflexivity|]. intros Hh Hnz.
  assert (Hu : forall a i w0,
            unmapGrantorDescr PAGE_SIZE (Queue d ring rp wp) a i w0 = Fault).
  { intros a i w0. unfold unmapGrantorDescr, bind, handle. cbn [mDesc].
    by rewrite Hh. }
  unfold MessageQueue_dtor, bind. cbn [mReadPtr mWritePtr mRing].
  destruct (Z.eqb_spec rp 0) as [Hr|Hr]; cbv beta iota; [|by rewrite Hu].
  unfold ret at 1.
  destruct (Z.eqb_spec wp 0) as [Hw|Hw]; cbv beta iota; [|by rewrite Hu].
  unfold ret at 1.
  destruct (Z.eqb_spec ring 0) as [Hg|Hg]; cbv beta iota; [lia|by rewrite Hu].
Qed.

Lemma destructor_of_unbound_endpoint_witness :
  getNativeHandle (Descriptor [] None 1 8) = None
  /\ (0 <> 0 \/ 4096 <> 0 \/ 0 <> 0)
  /\ MessageQueue_dtor 4096 (Queue (Descriptor [] None 1 8) 0 0 0) (World ∅ [])
     = Ok (tt, World ∅ [])
  /\ MessageQueue_dtor 4096 (Queue (Descriptor [] None 1 8) 0 4096 0)
       (World ∅ []) = Fault.
Proof.
  assert (H1 : getNativeHandle (Descriptor [] None 1 8) = None)
    by reflexivity.
  assert (H2 : 0 <> 0 \/ 4096 <> 0 \/ 0 <> 0) by (right; left; lia).
  destruct (destructor_of_unbound_endpoint 4096 (Descriptor [] None 1 8)
              0 4096 0 (World ∅ [])) as [Hz Hf].
  split; [exact H1|]. split; [exact H2|]. split; [exact Hz|].
  exact (Hf H1 H2).
Defined.

(** * The accesses of an operation *)

(** X8: the atomic accesses of an operation, in order. [write] and [read]
    first take the space hint with two relaxed loads, of the write counter and
    then of the read counter; a refused operation does nothing else. An
    accepted [write] then loads the read counter with acquire ordering, loads
    its own counter twice, relaxed (in [beginWrite] and in [commitWrite]), and
    publishes the new write position with one release store. An accepted
    [read] does the same with the roles of the counters exchanged. Neither
    stores to the other side's counter. *)
Theorem access_protocol (sizeofT : Z) (q : MessageQueue) (w : world)
  (data : list byte) (count : Z) :
  well_formed q (mem w) = true ->
  occupancy q (mem w) <= getSize (mDesc q) ->
  array_of sizeofT data count = true ->
  let n := sizeofT * count in
  let hint := [AtomicLoad (mWritePtr q) memory_order_relaxed;
               AtomicLoad (mReadPtr q) memory_order_relaxed] in
  (exists b w',
     write sizeofT q data count w = Ok (b, w')
     /\ trace w'
        = trace w ++ hint ++
          (if b
           then [AtomicLoad (mReadPtr q) memory_order_acquire;
                 AtomicLoad (mWritePtr q) memory_order_relaxed;
                 AtomicLoad (mWritePtr q) memory_order_relaxed;
                 AtomicStore (mWritePtr q)
                   (wrap64 (writePos q (mem w) + n)) memory_order_release]
           else []))
  /\ (exists b out w',
        read sizeofT q data count w = Ok ((b, out), w')
        /\ trace w'
           = trace w ++ hint ++
             (if b
              then [AtomicLoad (mWritePtr q) memory_order_acquire;
                    AtomicLoad (mReadPtr q) memory_order_relaxed;
                    AtomicLoad (mReadPtr q) memory_order_relaxed;
                    AtomicStore (mReadPtr q)
                      (wrap64 (readPos q (mem w) + n)) memory_order_release]
              else [])).
Proof.
  intros Hwf Hocc Harr. cbv zeta.
  destruct (well_formed_elim _ _ Hwf) as (_ & HC & Hcm & _).
  destruct (array_of_elim _ _ _ Harr) as (HT & Hcount & Hlen & Hmax).
  pose proof (getSize_range (mDesc q)) as HCr.
  pose proof (occupancy_range q (mem w)) as Ho.
  unfold SIZE_MAX in Hmax.
  assert (Hn : 0 <= sizeofT * count) by nia.
  split.
  - destruct (Z_lt_le_dec (getSize (mDesc q) - occupancy q (mem w))
                (sizeofT * count)) as [Hlt|Hge].
    + assert (Hr : wrap64 (getSize (mDesc q) - occupancy q (mem w))
                   < wrap64 (sizeofT * count))
        by (rewrite !wrap64_small by lia; lia).
      exists false. eexists. rewrite write_refuse_eq by done.
      split; reflexivity.
    + exists true. eexists. rewrite write_accept_eq by done.
      split; reflexivity.
  - destruct (Z_lt_le_dec (occupancy q (mem w)) (sizeofT * count)) as [Hlt|Hge].
    + assert (Hr : occupancy q (mem w) < wrap64 (sizeofT * count))
        by (rewrite !wrap64_small by lia; lia).
      exists false, data. eexists. rewrite read_refuse_eq by done.
      split; reflexivity.
    + exists true. eexists _, _. rewrite read_accept_eq by done.
      split; reflexivity.
Qed.

Lemma access_protocol_witness :
  well_formed (example_queue 8 1) (example_mem 8 4 6) = true
  /\ occupancy (example_queue 8 1) (example_mem 8 4 6) <= 8
  /\ array_of 1 (zeros 3) 3 = true
  /\ exists out w',
       read 1 (example_queue 8 1) (zeros 3) 3 (World (example_mem 8 4 6) [])
       = Ok ((false, out), w')
       /\ trace w' = [AtomicLoad 8192 memory_order_relaxed;
                      AtomicLoad 4096 memory_order_relaxed].
Proof.
  assert (H1 : well_formed (example_queue 8 1)
                 (mem (World (example_mem 8 4 6) [])) = true)
    by (vm_compute; reflexivity).
  assert (H2 : occupancy (example_queue 8 1) (mem (World (example_mem 8 4 6) []))
               <= getSize (mDesc (example_queue 8 1)))
    by (vm_compute; discriminate).
  assert (H3 : array_of 1 (zeros 3) 3 = true) by (vm_compute; reflexivity).
  destruct (access_protocol 1 _ _ _ 3 H1 H2 H3)
    as [_ (b & out & w' & Hr & Ht)].
  split; [exact H1|]. split; [exact H2|]. split; [exact H3|].
  exists out, w'.
  assert (Eb : b = false) by (vm_compute in Hr; congruence).
  subst b. split; [exact Hr | exact Ht].
Defined.
